(** * Harmony UMM-Var groupings: required-variable augmentation

    A shallow embedding of the DAS-1185 prototype:
    - [CollectionData]: the ATL08 and RSSMIF16D fixtures (collection-data.ts);
    - [Graph]: the property graph held by the neo4j database;
    - [PopulateGraph]: the [CREATE] statements built by populate-graph.ts and
      the graph they leave in the database;
    - [Cypher]: what [requiredVariableQuery] computes on a property graph;
    - [RequiredVariables]: required-variables.ts, with the promises, the
      neo4j session and the arrays mutated in place made explicit;
    - [Closure]: reachability along requires edges, as the specification
      words it;
    - [Fixtures]: the graphs, servers and requests the statements use;
    - [Text], [Load], [Neo4jConfig], [Log]: characters of a label, a
      collection added by position, the connection settings of
      [getNeo4jDriver] and [getNeo4jSession], and the errors logged.

    The properties follow the definitions. *)

From Stdlib Require Import Ascii.
From stdpp Require Import gmap strings list relations pretty.

(** ** collection-data.ts *)
Module CollectionData.

Record VariableRec := mkVariable {
  conceptId : string;
  dataType : string;
  name : string
}.

Record VariableEdge := mkEdge {
  originIndex : nat;
  destinationIndex : nat
}.

Record Collection := mkCollection {
  collConceptId : string;
  collName : string;
  variables : list VariableRec;
  variableEdges : list VariableEdge
}.

Definition atl08 : Collection := {|
  collConceptId := "C1234714698-EEDTEST";
  collName := "ATL08";
  variables := [
    mkVariable "V1237330160-EEDTEST" "int16" "/gt1l/signal_photons/classed_pc_flag";
    mkVariable "V1237330281-EEDTEST" "float32" "/gt1l/land_segments/dem_h";
    mkVariable "V1237332028-EEDTEST" "float32" "/gt1l/land_segments/canopy/h_canopy";
    mkVariable "V1237332356-EEDTEST" "float32" "/gt1l/land_segments/latitude";
    mkVariable "V1237332501-EEDTEST" "float32" "/gt1l/land_segments/longitude";
    mkVariable "V1240989290-EEDTEST" "float64" "/gt1l/signal_photons/delta_time";
    mkVariable "V1240989293-EEDTEST" "int32" "/gt1l/signal_photons/classed_pc_indx";
    mkVariable "V1240989295-EEDTEST" "int8" "/gt1l/signal_photons/d_flag";
    mkVariable "V1240989297-EEDTEST" "int32" "/gt1l/signal_photons/ph_segment_id";
    mkVariable "V1240989299-EEDTEST" "float64" "/gt1l/land_segments/delta_time";
    mkVariable "V1240989301-EEDTEST" "int32" "/gt1l/land_segments/ph_ndx_beg";
    mkVariable "V1240989303-EEDTEST" "int64" "/gt1l/land_segments/n_seg_ph"
  ];
  variableEdges := [
    mkEdge 0 5; mkEdge 6 5; mkEdge 7 5; mkEdge 8 5;
    mkEdge 5 10; mkEdge 5 11;
    mkEdge 10 3; mkEdge 10 4; mkEdge 10 9;
    mkEdge 11 3; mkEdge 11 4; mkEdge 11 9;
    mkEdge 1 3; mkEdge 1 4; mkEdge 1 9;
    mkEdge 2 3; mkEdge 2 4; mkEdge 2 9;
    mkEdge 3 9; mkEdge 4 9;
    mkEdge 9 3; mkEdge 9 4;
    mkEdge 4 3; mkEdge 3 4
  ]
|}.

Definition rssmif16d : Collection := {|
  collConceptId := "C1238392622-EEDTEST";
  collName := "RSSMIF16D";
  variables := [
    mkVariable "V1238395074-EEDTEST" "int16" "atmosphere_water_vapor_content";
    mkVariable "V1238395076-EEDTEST" "float32" "latitude";
    mkVariable "V1238395077-EEDTEST" "int16" "rainfall_rate";
    mkVariable "V1238395078-EEDTEST" "int16" "atmosphere_cloud_liquid_water_content";
    mkVariable "V1238395080-EEDTEST" "float32" "longitude";
    mkVariable "V1238395084-EEDTEST" "int16" "sst_dtime";
    mkVariable "V1238395085-EEDTEST" "int16" "wind_speed";
    mkVariable "V1238395086-EEDTEST" "int16" "time"
  ];
  variableEdges := [
    mkEdge 0 1; mkEdge 0 4; mkEdge 0 7;
    mkEdge 2 1; mkEdge 2 4; mkEdge 2 7;
    mkEdge 3 1; mkEdge 3 4; mkEdge 3 7;
    mkEdge 5 1; mkEdge 5 4; mkEdge 5 7;
    mkEdge 6 1; mkEdge 6 4; mkEdge 6 7
  ]
|}.

End CollectionData.

(** ** The property graph held by the database *)
Module Graph.

Inductive Label := LCollection | LVariable.
Inductive RelType := HASVARIABLE | REQUIRES.

#[global] Instance Label_eq_dec : EqDecision Label.
Proof. solve_decision. Defined.
#[global] Instance RelType_eq_dec : EqDecision RelType.
Proof. solve_decision. Defined.

(** A vertex with its label and properties; [DataType] is only set on
    variable vertices. *)
Record Node := mkNode {
  label : Label;
  ConceptId : string;
  DataType : option string;
  Name : string
}.

(** A relationship between two vertices, given by their positions in
    [nodes]. Two relationships with the same ends and type are two entries. *)
Record Rel := mkRel {
  rsrc : nat;
  rtype : RelType;
  rdst : nat
}.

Record t := mkGraph {
  nodes : list Node;
  rels : list Rel
}.

Definition empty : t := mkGraph [] [].

End Graph.

(** ** populate-graph.ts *)
Module PopulateGraph.
Import CollectionData.

(** [String.prototype.split] with a one-character separator. *)
Fixpoint split (sep : ascii) (s : string) : list string :=
  match s with
  | EmptyString => [EmptyString]
  | String c s' =>
      if Ascii.eqb c sep then EmptyString :: split sep s'
      else match split sep s' with
           | [] => [String c EmptyString]
           | h :: t => String c h :: t
           end
  end.

(** [Array.prototype.join]. *)
Definition join (sep : string) (l : list string) : string :=
  match l with
  | [] => EmptyString
  | h :: t => foldl (fun acc x => acc +:+ sep +:+ x) h t
  end.

(** [variableName.replace(/^\//, '')]: drops one leading slash. *)
Definition stripLeadingSlash (s : string) : string :=
  match s with
  | String c s' => if Ascii.eqb c "/"%char then s' else s
  | EmptyString => s
  end.

Definition getVariableLabel (variableName : string) : string :=
  join "_" (split "/"%char (stripLeadingSlash variableName)).

(** The comma-separated patterns of a Cypher [CREATE] statement, as far as
    this script writes them: a vertex bound to an identifier, or an edge
    between two identifiers. *)
Inductive Pattern :=
| PVertex (ident : string) (lbl : Graph.Label)
          (cid : string) (dt : option string) (nm : string)
| PEdge (origin : string) (ty : Graph.RelType) (destination : string).

Definition buildVariableVertex (variable : VariableRec) : Pattern :=
  PVertex (getVariableLabel (name variable)) Graph.LVariable
          (conceptId variable) (Some (dataType variable)) (name variable).

Definition buildHasVariableEdge (collectionName : string) (variable : VariableRec) : Pattern :=
  PEdge collectionName Graph.HASVARIABLE (getVariableLabel (name variable)).

Definition buildRequiresEdge (origin destination : VariableRec) : Pattern :=
  PEdge (getVariableLabel (name origin)) Graph.REQUIRES
        (getVariableLabel (name destination)).

(** [None] stands for the [TypeError] raised when an edge index lies outside
    [collection.variables] (reading [.name] of [undefined]). *)
Definition getCollectionQueryString (collection : Collection) : option (list Pattern) :=
  let collectionVertex :=
    PVertex (collName collection) Graph.LCollection
            (collConceptId collection) None (collName collection) in
  let variableVertices := map buildVariableVertex (variables collection) in
  let collectionEdges :=
    map (buildHasVariableEdge (collName collection)) (variables collection) in
  variableEdges ←
    mapM (fun variableEdge =>
            origin ← variables collection !! originIndex variableEdge;
            destination ← variables collection !! destinationIndex variableEdge;
            Some (buildRequiresEdge origin destination))
         (variableEdges collection);
  Some (collectionVertex :: variableVertices ++ collectionEdges ++ variableEdges).

(** One pattern of a [CREATE], for patterns whose identifiers are names
    (see [Load.readable]): a vertex pattern adds a vertex and binds its
    identifier, which must be new in the statement; an edge pattern adds a
    relationship between the vertices its identifiers are bound to. Cypher
    reads other texts otherwise, and they are not followed here: an empty
    identifier makes the pattern anonymous (it binds nothing, and in an edge
    it adds a vertex of its own), a text that is no name is a syntax error,
    and an unbound name in an edge adds a vertex without label. The
    statements above only name identifiers they declare; an unbound
    identifier is a failure here. *)
Definition createPattern (st : gmap string nat * Graph.t) (p : Pattern)
  : option (gmap string nat * Graph.t) :=
  let '(env, g) := st in
  match p with
  | PVertex x l c d n =>
      match env !! x with
      | Some _ => None
      | None =>
          Some (<[x := length (Graph.nodes g)]> env,
                Graph.mkGraph (Graph.nodes g ++ [Graph.mkNode l c d n]) (Graph.rels g))
      end
  | PEdge a ty b =>
      i ← env !! a;
      j ← env !! b;
      Some (env, Graph.mkGraph (Graph.nodes g) (Graph.rels g ++ [Graph.mkRel i ty j]))
  end.

(** [transaction.run] of one [CREATE] statement; identifiers are scoped to
    the statement. *)
Definition runCreate (stmt : list Pattern) (g : Graph.t) : option Graph.t :=
  snd <$> foldl (fun st p => st ≫= fun s => createPattern s p) (Some (∅, g)) stmt.

(** The transaction of [populateDatabase] on a server that carries out what
    it is sent: remove everything, add RSSMIF16D, add ATL08, commit; a
    statement that fails rolls back to the graph before. A server that
    fails by itself (it cannot be reached, the commit is refused) is not
    followed here. *)
Definition populateDatabase (before : Graph.t) : Graph.t :=
  let transaction :=
    q1 ← getCollectionQueryString rssmif16d;
    g1 ← runCreate q1 Graph.empty;
    q2 ← getCollectionQueryString atl08;
    runCreate q2 g1 in
  default before transaction.

End PopulateGraph.

(** ** The Cypher query of required-variables.ts *)
Module Cypher.
Import Graph.

(** Every way of taking one element out of a list, with what is left. *)
Fixpoint picks {A} (l : list A) : list (A * list A) :=
  match l with
  | [] => []
  | x :: t => (x, t) :: map (fun '(y, rest) => (y, x :: rest)) (picks t)
  end.

(** [(n)-[:REQUIRES *1..]->(m)]: the end vertices [m] of the paths that leave
    [n], follow one or more [REQUIRES] relationships in their direction, and
    use no relationship twice (Cypher matches a relationship at most once in
    a pattern). One entry per path. Each hop takes a relationship out of
    [rs], so [fuel = length rs] hops are enough (see [pathEnds_fuel]). *)
Fixpoint pathEnds (fuel : nat) (rs : list Rel) (n : nat) : list nat :=
  match fuel with
  | 0 => []
  | S fuel' =>
      '(r, rest) ← picks rs;
      if decide (rsrc r = n ∧ rtype r = REQUIRES)
      then rdst r :: pathEnds fuel' rest (rdst r)
      else []
  end.

(** A record of the query result, with its two keys. *)
Record Row := mkRow {
  rowConceptId : string;
  rowName : string
}.

#[global] Instance Row_eq_dec : EqDecision Row.
Proof. solve_decision. Defined.

(** The vertices bound to [requiredVariable], one entry per matched path:
    [MATCH (requestedVariable:Variable)-[:REQUIRES *1..]->(requiredVariable)
     WHERE requestedVariable.ConceptId IN $requestedVariableConceptIds]. *)
Definition matchRequired (g : Graph.t) (requestedVariableConceptIds : list string)
  : list nat :=
  '(i, requestedVariable) ← imap pair (nodes g);
  if decide (label requestedVariable = LVariable
             ∧ ConceptId requestedVariable ∈ requestedVariableConceptIds)
  then pathEnds (length (rels g)) (rels g) i
  else [].

(** [RETURN DISTINCT requiredVariable.ConceptId AS ConceptId,
     requiredVariable.Name as Name]. The order of the rows is the database's
    choice; this is one of them. *)
Definition requiredVariableQuery (g : Graph.t) (requestedVariableConceptIds : list string)
  : list Row :=
  remove_dups (
    j ← matchRequired g requestedVariableConceptIds;
    match nodes g !! j with
    | Some requiredVariable =>
        [mkRow (ConceptId requiredVariable) (Name requiredVariable)]
    | None => []
    end).

End Cypher.

(** ** required-variables.ts *)
Module RequiredVariables.
Import Cypher.

(** Modelled from the spec: the declaration of [CmrUmmVariable] (util/cmr.ts)
    is not among the sources. A requested-variable descriptor exposes at
    least an identifier; this module reads [meta['concept-id']] and builds
    [{ meta: { 'concept-id': conceptId }, umm: { Name: name } }]. *)
Record CmrUmmVariable := mkCmrUmmVariable {
  concept_id : string;
  umm_Name : string
}.

#[global] Instance CmrUmmVariable_eq_dec : EqDecision CmrUmmVariable.
Proof. solve_decision. Defined.

(** Modelled from the spec: the declaration of [VariableInfo]
    (variable-parsing.ts) is not among the sources. One entry per collection
    of the request; [variables] is [None] when the object has no own
    property of that name, and otherwise the address of the array it refers
    to. The module writes to these arrays only, never to a [VariableInfo]
    object or to the array of them. *)
Record VariableInfo := mkVariableInfo {
  collectionId : string;
  variables : option nat
}.

Inductive JsError :=
| Neo4jError (message : string)
| TypeError (message : string).

(** What [performCypherQuery] resolves with. *)
Inductive JsValue :=
| Undefined
| Array (elements : list CmrUmmVariable).

(** A settled promise. *)
Inductive Settled (A : Type) :=
| Resolved (a : A)
| Rejected (e : JsError).
Arguments Resolved {A} a.
Arguments Rejected {A} e.

(** What the program does to the outside, in order. *)
Inductive Event :=
| EvDriver
| EvSession
| EvRun (requestedVariableConceptIds : list string)
| EvLog (error : JsError)
| EvSessionClose
| EvDriverClose.

(** The arrays of requested variables, by address, and the events so far. *)
Record World := mkWorld {
  heap : gmap nat (list CmrUmmVariable);
  events : list Event
}.

Definition isRun (e : Event) : bool :=
  match e with EvRun _ => true | _ => false end.

(** Number of queries sent so far. *)
Definition runs (w : World) : nat := length (filter isRun (events w)).

(** The database server as the session sees it: the answer to the [k]-th
    query, given the query and its parameter; a rejection when the server
    cannot be reached or the query cannot complete. A query string stands
    here as what it computes on a graph. *)
Definition Server : Type :=
  nat → (Graph.t → list string → list Row) → list string → Settled (list Row).

(** A server that holds the graph [g] and always answers. *)
Definition neo4j (g : Graph.t) : Server := fun _ query params => Resolved (query g params).

(** Asynchronous code: a computation over the world that settles. *)
Definition Promise (A : Type) : Type := World → Settled A * World.

#[global] Instance Promise_ret : MRet Promise := fun _ a w => (Resolved a, w).
#[global] Instance Promise_bind : MBind Promise := fun _ _ f p w =>
  match p w with
  | (Resolved a, w') => f a w'
  | (Rejected e, w') => (Rejected e, w')
  end.

Definition throw {A} (e : JsError) : Promise A := fun w => (Rejected e, w).

Definition emit (e : Event) : Promise unit := fun w =>
  (Resolved tt, mkWorld (heap w) (events w ++ [e])).

(** [p.then(f)]. *)
Definition then_ {A B} (p : Promise A) (f : A → Promise B) : Promise B := p ≫= f.

(** [p.catch(h)]. *)
Definition catch {A} (p : Promise A) (h : JsError → Promise A) : Promise A := fun w =>
  match p w with
  | (Resolved a, w') => (Resolved a, w')
  | (Rejected e, w') => h e w'
  end.

(** [p.finally(f)]: [f] runs either way and the outcome of [p] stands, unless
    [f] itself fails. *)
Definition finally {A} (p : Promise A) (f : Promise unit) : Promise A := fun w =>
  match p w with
  | (r, w') =>
      match f w' with
      | (Resolved _, w'') => (r, w'')
      | (Rejected e, w'') => (Rejected e, w'')
      end
  end.

(** [for (const x of l) body(x)] and [l.forEach(body)]. *)
Fixpoint forEach {A} (l : list A) (body : A → Promise unit) : Promise unit :=
  match l with
  | [] => mret tt
  | x :: t => body x;; forEach t body
  end.

(** The two [TypeError]s this module can run into: [variables] is there
    and holds no array, so that calling [.map] on it fails (worded as for a
    value without that method), and [.forEach] is called on [undefined]. *)
Definition notArray : JsError :=
  TypeError "varInfo.variables.map is not a function".
Definition undefinedForEach : JsError :=
  TypeError "Cannot read properties of undefined (reading 'forEach')".

Section WithServer.
Variable server : Server.

(** The driver and the session, once they exist. [Neo4J.driver] and
    [driver.session] send nothing to the server; what they are built from
    is in [Neo4jConfig]. [Neo4J.driver] throws for a URL it cannot read
    (an unknown scheme), before any session or query: this development
    follows the calls in which the driver is created. *)
Definition getNeo4jDriver : Promise unit := emit EvDriver.
Definition getNeo4jSession : Promise unit := emit EvSession.

(** [session.run(queryString, queryParameters)]. *)
Definition session_run (queryString : Graph.t → list string → list Row)
    (queryParameters : list string) : Promise (list Row) := fun w =>
  (server (runs w) queryString queryParameters,
   mkWorld (heap w) (events w ++ [EvRun queryParameters])).

Definition session_close : Promise unit := emit EvSessionClose.
Definition driver_close : Promise unit := emit EvDriverClose.

(** [console.log(error)], whose value is [undefined]. *)
Definition console_log (error : JsError) : Promise JsValue :=
  emit (EvLog error);; mret Undefined.

Definition performCypherQuery
    (queryString : Graph.t → list string → list Row)
    (queryParameters : list string)
    (resultsCallback : list Row → Promise JsValue) : Promise JsValue :=
  finally
    (catch
       (then_ (session_run queryString queryParameters)
              (fun results => resultsCallback results))
       (fun error => console_log error))
    session_close.

(** The callback of [result.records.map] in [extractVariableResults]. *)
Definition variableOfRecord (record : Row) : CmrUmmVariable :=
  let conceptId := rowConceptId record in
  let name := rowName record in
  mkCmrUmmVariable conceptId name.

Definition extractVariableResults (records : list Row) : Promise JsValue :=
  mret (Array (map variableOfRecord records)).

Definition getRequiredVariables (requestedVariableConceptIds : list string)
  : Promise JsValue :=
  getNeo4jDriver;;
  getNeo4jSession;;
  requiredVariables ←
    performCypherQuery requiredVariableQuery requestedVariableConceptIds
                       extractVariableResults;
  driver_close;;
  mret requiredVariables.

(** Reading the array behind [varInfo.variables]; calling a method on what
    is not an array is a [TypeError]. *)
Definition readArray (a : nat) : Promise (list CmrUmmVariable) := fun w =>
  match heap w !! a with
  | Some vs => (Resolved vs, w)
  | None => (Rejected notArray, w)
  end.

(** [array.push(variable)]. *)
Definition push (a : nat) (variable : CmrUmmVariable) : Promise unit := fun w =>
  match heap w !! a with
  | Some vs => (Resolved tt, mkWorld (<[a := vs ++ [variable]]> (heap w)) (events w))
  | None => (Rejected notArray, w)
  end.

(** [varInfo.variables.some((requestedVariable) =>
      requestedVariable.meta['concept-id'] === variable.meta['concept-id'])]. *)
Definition some_same_id (vs : list CmrUmmVariable) (variable : CmrUmmVariable) : bool :=
  existsb (fun requestedVariable =>
             bool_decide (concept_id requestedVariable = concept_id variable)) vs.

(** The callback of [requiredVariables.forEach]. *)
Definition pushIfMissing (a : nat) (variable : CmrUmmVariable) : Promise unit :=
  vs ← readArray a;
  if negb (some_same_id vs variable) then push a variable else mret tt.

(** The body of the loop of [addRequiredVariables] for one [varInfo]. *)
Definition augment (varInfo : VariableInfo) : Promise unit :=
  match variables varInfo with
  | Some a =>
      vs ← readArray a;
      let requestedVariableConceptIds := map concept_id vs in
      requiredVariables ← getRequiredVariables requestedVariableConceptIds;
      match requiredVariables with
      | Array rs => forEach rs (pushIfMissing a)
      | Undefined => throw undefinedForEach
      end
  | None => mret tt
  end.

Definition addRequiredVariables (varInfos : list VariableInfo)
  : Promise (list VariableInfo) :=
  forEach varInfos augment;;
  mret varInfos.

End WithServer.

(** What the [forEach] of [addRequiredVariables] leaves in the array that
    held [vs], when the query returned [rs]. *)
Definition merge (vs rs : list CmrUmmVariable) : list CmrUmmVariable :=
  foldl (fun vs variable =>
           if negb (some_same_id vs variable) then vs ++ [variable] else vs) vs rs.

(** The events of one call of [getRequiredVariables], with the error logged
    when the query failed. *)
Definition queryEvents (ids : list string) (failure : option JsError) : list Event :=
  [EvDriver; EvSession; EvRun ids]
  ++ match failure with Some e => [EvLog e] | None => [] end
  ++ [EvSessionClose; EvDriverClose].

(** How often the identifier [c] occurs in an array. *)
Definition occurrences (c : string) (vs : list CmrUmmVariable) : nat :=
  length (filter (fun v => concept_id v = c) vs).

(** A server that answers every [requiredVariableQuery] from the graph [g],
    with the rows in an order of its choice. *)
Definition answers (g : Graph.t) (server : Server) : Prop :=
  ∀ k ids, ∃ rows,
    server k requiredVariableQuery ids = Resolved rows
    ∧ rows ≡ₚ requiredVariableQuery g ids.

(** Entries that have a [variables] property. *)
Definition withVariables (varInfos : list VariableInfo) : list VariableInfo :=
  filter (fun varInfo => is_Some (variables varInfo)) varInfos.

End RequiredVariables.

(** ** The closure, in the words of the specification *)
Module Closure.
Import Graph.

(** [a] requires [b]: some [REQUIRES] relationship leads from [a] to [b]. *)
Definition requiresIn (rs : list Rel) (a b : nat) : Prop :=
  ∃ r, r ∈ rs ∧ rsrc r = a ∧ rtype r = REQUIRES ∧ rdst r = b.

Definition requires (g : Graph.t) : relation nat := requiresIn (rels g).

(** A variable vertex whose identifier is among the requested ones. *)
Definition seed (g : Graph.t) (ids : list string) (s : nat) : Prop :=
  ∃ sn, nodes g !! s = Some sn ∧ label sn = LVariable ∧ ConceptId sn ∈ ids.

(** The seeds, listed in the order of the vertices. *)
Definition seeds (g : Graph.t) (ids : list string) : list nat :=
  omap (fun '(i, n) =>
          if decide (label n = LVariable ∧ ConceptId n ∈ ids) then Some i else None)
       (imap pair (nodes g)).

(** Reachable from a seed along one or more requires edges. *)
Definition reachable (g : Graph.t) (ids : list string) (v : nat) : Prop :=
  ∃ s, seed g ids s ∧ tc (requires g) s v.

(** A set that holds what the seeds require and is closed under "add any
    variable required by a variable already in the set". *)
Definition closedUnder (g : Graph.t) (ids : list string) (X : nat → Prop) : Prop :=
  (∀ s m, seed g ids s → requires g s m → X m)
  ∧ (∀ a b, X a → requires g a b → X b).

(** The least such set. *)
Definition leastClosed (g : Graph.t) (ids : list string) (v : nat) : Prop :=
  ∀ X, closedUnder g ids X → X v.

(** An identifier is known when a variable vertex carries it. *)
Definition known (g : Graph.t) (c : string) : Prop :=
  ∃ n, n ∈ nodes g ∧ label n = LVariable ∧ ConceptId n = c.

(** Every vertex has an identifier of its own. *)
Definition uniqueIds (g : Graph.t) : Prop := NoDup (map ConceptId (nodes g)).

(** The array at address [a] holds whatever its variables require. *)
Definition closedAt (g : Graph.t)
    (h : gmap nat (list RequiredVariables.CmrUmmVariable)) (a : nat) : Prop :=
  ∃ vs, h !! a = Some vs
        ∧ ∀ c, c ∈ map Cypher.rowConceptId
                     (Cypher.requiredVariableQuery g (map RequiredVariables.concept_id vs)) →
               c ∈ map RequiredVariables.concept_id vs.

#[global] Instance known_dec g c : Decision (known g c).
Proof.
  refine (cast_if (decide (Exists (fun n => label n = LVariable ∧ ConceptId n = c) (nodes g))));
    unfold known; rewrite Exists_exists in *; naive_solver.
Defined.

End Closure.

(** ** Graphs used in the statements *)
Module Fixtures.
Import Graph.

(** The database after [npm run populate-graph]. *)
Definition database : Graph.t := PopulateGraph.populateDatabase Graph.empty.

(** Two variables that require each other. *)
Definition twoCycle (A B nameA nameB : string) : Graph.t :=
  mkGraph [mkNode LVariable A None nameA; mkNode LVariable B None nameB]
          [mkRel 0 REQUIRES 1; mkRel 1 REQUIRES 0].

(** One variable that requires itself. *)
Definition selfLoop (A nameA : string) : Graph.t :=
  mkGraph [mkNode LVariable A None nameA] [mkRel 0 REQUIRES 0].

(** A server that cannot be reached. *)
Definition unreachable : RequiredVariables.Server :=
  fun _ _ _ => RequiredVariables.Rejected (RequiredVariables.Neo4jError "ServiceUnavailable").

(** A server that answers [n] queries from [g] and is lost afterwards. *)
Definition failsAfter (n : nat) (g : Graph.t) : RequiredVariables.Server :=
  fun k query params =>
    if decide (k < n) then RequiredVariables.Resolved (query g params)
    else RequiredVariables.Rejected (RequiredVariables.Neo4jError "ServiceUnavailable").

(** The two requests of the README: [/gt1l/signal_photons/classed_pc_flag]
    of ATL08 (P0, array at address 0) and [rainfall_rate] of RSSMIF16D
    (array at address 1). *)
Definition P0 : RequiredVariables.CmrUmmVariable :=
  RequiredVariables.mkCmrUmmVariable
    "V1237330160-EEDTEST" "/gt1l/signal_photons/classed_pc_flag".
Definition rainfall_rate : RequiredVariables.CmrUmmVariable :=
  RequiredVariables.mkCmrUmmVariable "V1238395077-EEDTEST" "rainfall_rate".

Definition atl08Request : RequiredVariables.VariableInfo :=
  RequiredVariables.mkVariableInfo "C1234714698-EEDTEST" (Some 0).
Definition rssmif16dRequest : RequiredVariables.VariableInfo :=
  RequiredVariables.mkVariableInfo "C1238392622-EEDTEST" (Some 1).

Definition requestWorld : RequiredVariables.World :=
  RequiredVariables.mkWorld {[ 0 := [P0]; 1 := [rainfall_rate] ]} [].

(** The variables of ATL08 that P0 requires, as the query returns them. *)
Definition P5 : RequiredVariables.CmrUmmVariable :=
  RequiredVariables.mkCmrUmmVariable
    "V1240989290-EEDTEST" "/gt1l/signal_photons/delta_time".
Definition P10 : RequiredVariables.CmrUmmVariable :=
  RequiredVariables.mkCmrUmmVariable
    "V1240989301-EEDTEST" "/gt1l/land_segments/ph_ndx_beg".
Definition P11 : RequiredVariables.CmrUmmVariable :=
  RequiredVariables.mkCmrUmmVariable
    "V1240989303-EEDTEST" "/gt1l/land_segments/n_seg_ph".
Definition P3 : RequiredVariables.CmrUmmVariable :=
  RequiredVariables.mkCmrUmmVariable
    "V1237332356-EEDTEST" "/gt1l/land_segments/latitude".
Definition P4 : RequiredVariables.CmrUmmVariable :=
  RequiredVariables.mkCmrUmmVariable
    "V1237332501-EEDTEST" "/gt1l/land_segments/longitude".
Definition P9 : RequiredVariables.CmrUmmVariable :=
  RequiredVariables.mkCmrUmmVariable
    "V1240989299-EEDTEST" "/gt1l/land_segments/delta_time".

Definition atl08Required : list RequiredVariables.CmrUmmVariable :=
  [P5; P10; P11; P3; P4; P9].

(** The same six in the order in which [Cypher.requiredVariableQuery]
    lists them. *)
Definition atl08Returned : list RequiredVariables.CmrUmmVariable :=
  [P5; P10; P11; P4; P3; P9].

(** Two collections that list a variable with the same concept id: in the
    first it is required by [station], in the second it requires [time]. *)
Definition firstCatalog : CollectionData.Collection :=
  CollectionData.mkCollection "C0000000001-EEDTEST" "FIRST"
    [CollectionData.mkVariable "V0000000001-EEDTEST" "float32" "station";
     CollectionData.mkVariable "V0000000002-EEDTEST" "float32" "depth"]
    [CollectionData.mkEdge 0 1].
Definition secondCatalog : CollectionData.Collection :=
  CollectionData.mkCollection "C0000000002-EEDTEST" "SECOND"
    [CollectionData.mkVariable "V0000000002-EEDTEST" "float32" "depth";
     CollectionData.mkVariable "V0000000003-EEDTEST" "float64" "time"]
    [CollectionData.mkEdge 0 1].

(** The graph after the [CREATE] statements of both, as
    [getCollectionQueryString] builds them. *)
Definition sharedCatalogs : Graph.t :=
  default Graph.empty
    (q1 ← PopulateGraph.getCollectionQueryString firstCatalog;
     g1 ← PopulateGraph.runCreate q1 Graph.empty;
     q2 ← PopulateGraph.getCollectionQueryString secondCatalog;
     PopulateGraph.runCreate q2 g1).

Definition vStation : RequiredVariables.CmrUmmVariable :=
  RequiredVariables.mkCmrUmmVariable "V0000000001-EEDTEST" "station".
Definition vDepth : RequiredVariables.CmrUmmVariable :=
  RequiredVariables.mkCmrUmmVariable "V0000000002-EEDTEST" "depth".
Definition vTime : RequiredVariables.CmrUmmVariable :=
  RequiredVariables.mkCmrUmmVariable "V0000000003-EEDTEST" "time".

(** A request whose [variables] array is there and empty. *)
Definition emptyRequest : RequiredVariables.VariableInfo :=
  RequiredVariables.mkVariableInfo "C1234714698-EEDTEST" (Some 0).
Definition emptyWorld : RequiredVariables.World :=
  RequiredVariables.mkWorld {[ 0 := [] ]} [].

End Fixtures.

(** ** Characters of a string *)
Module Text.

Fixpoint chars (s : string) : list ascii :=
  match s with
  | EmptyString => []
  | String c s' => c :: chars s'
  end.

(** [s] with every [a] turned into [b]. *)
Fixpoint replaceChar (a b : ascii) (s : string) : string :=
  match s with
  | EmptyString => EmptyString
  | String c s' => String (if Ascii.eqb c a then b else c) (replaceChar a b s')
  end.

(** What Cypher reads as a name without backticks: a letter or an
    underscore, then letters, digits and underscores. *)
Definition isLetter (c : ascii) : bool :=
  let n := nat_of_ascii c in
  (Nat.leb 65 n && Nat.leb n 90) || (Nat.leb 97 n && Nat.leb n 122).

Definition isDigit (c : ascii) : bool :=
  let n := nat_of_ascii c in Nat.leb 48 n && Nat.leb n 57.

Definition isNameStart (c : ascii) : bool := isLetter c || Ascii.eqb c "_".

Definition isNamePart (c : ascii) : bool :=
  isLetter c || isDigit c || Ascii.eqb c "_".

Definition upperChar (c : ascii) : ascii :=
  let n := nat_of_ascii c in
  if Nat.leb 97 n && Nat.leb n 122 then ascii_of_nat (n - 32) else c.

Fixpoint upper (s : string) : string :=
  match s with
  | EmptyString => EmptyString
  | String c s' => String (upperChar c) (upper s')
  end.

(** The words Cypher keeps for itself, whatever their case. *)
Definition reserved : list string :=
  ["CALL"; "CREATE"; "DELETE"; "DETACH"; "EXISTS"; "FOREACH"; "LOAD"; "MATCH";
   "MERGE"; "OPTIONAL"; "REMOVE"; "RETURN"; "SET"; "START"; "UNION"; "UNWIND";
   "WITH"; "LIMIT"; "ORDER"; "SKIP"; "WHERE"; "YIELD"; "ASC"; "ASCENDING";
   "ASSERT"; "BY"; "CSV"; "DESC"; "DESCENDING"; "ON"; "ALL"; "CASE"; "ELSE";
   "END"; "THEN"; "WHEN"; "AND"; "AS"; "CONTAINS"; "DISTINCT"; "ENDS"; "IN";
   "IS"; "NOT"; "OR"; "STARTS"; "XOR"; "CONSTRAINT"; "DROP"; "INDEX"; "NODE";
   "KEY"; "UNIQUE"; "JOIN"; "PERIODIC"; "COMMIT"; "SCAN"; "USING"; "FALSE";
   "NULL"; "TRUE"; "ADD"; "DO"; "FOR"; "MANDATORY"; "OF"; "REQUIRE"; "SCALAR"].

Definition isName (s : string) : bool :=
  match s with
  | EmptyString => false
  | String c rest => isNameStart c && forallb isNamePart (chars rest)
  end
  && negb (bool_decide (upper s ∈ reserved)).

(** What stands for itself between double quotes: printable ASCII other
    than the double quote (34) and the backslash (92). *)
Definition isPlain (s : string) : bool :=
  forallb (fun c => let n := nat_of_ascii c in
                    Nat.leb 32 n && Nat.leb n 126
                    && negb (Nat.eqb n 34) && negb (Nat.eqb n 92))
          (chars s).

End Text.

(** ** What a collection is meant to add to the graph *)
Module Load.
Import CollectionData Graph.

(** The Cypher identifiers a [CREATE] statement of populate-graph.ts
    declares: the name of the collection, then the label of each
    variable. *)
Definition identifiers (collection : Collection) : list string :=
  collName collection
  :: map (fun variable => PopulateGraph.getVariableLabel (name variable))
         (variables collection).

(** The statement of the collection reads as its patterns: every
    identifier is a name, and every text put between double quotes stands
    for itself. *)
Definition readable (collection : Collection) : bool :=
  Text.isName (collName collection)
  && Text.isPlain (collConceptId collection)
  && forallb (fun variable =>
                Text.isName (PopulateGraph.getVariableLabel (name variable))
                && Text.isPlain (conceptId variable)
                && Text.isPlain (dataType variable)
                && Text.isPlain (name variable))
             (variables collection).

(** Every edge refers to positions of [collection.variables]. *)
Definition edgesInRange (collection : Collection) : Prop :=
  Forall (fun variableEdge =>
            originIndex variableEdge < length (variables collection)
            ∧ destinationIndex variableEdge < length (variables collection))
         (variableEdges collection).

(** The graph with the collection added by position: after the vertices
    of [g] come the vertex of the collection and the vertices of its
    variables in their order; after the relationships of [g] come one
    [HASVARIABLE] per variable and one [REQUIRES] per edge. *)
Definition loadCollection (collection : Collection) (g : Graph.t) : Graph.t :=
  let base := length (nodes g) in
  mkGraph
    (nodes g
     ++ mkNode LCollection (collConceptId collection) None (collName collection)
     :: map (fun variable =>
               mkNode LVariable (conceptId variable) (Some (dataType variable))
                      (name variable))
            (variables collection))
    (rels g
     ++ imap (fun i _ => mkRel base HASVARIABLE (S base + i)) (variables collection)
     ++ map (fun variableEdge =>
               mkRel (S base + originIndex variableEdge) REQUIRES
                     (S base + destinationIndex variableEdge))
            (variableEdges collection)).

(** Two variables whose names differ and whose labels do not. *)
Definition clashing : Collection :=
  mkCollection "C0000000000-EEDTEST" "CLASH"
    [mkVariable "V0000000001-EEDTEST" "float32" "/gt1l/latitude";
     mkVariable "V0000000002-EEDTEST" "float32" "gt1l_latitude"]
    [].

(** An edge that points past the last variable. *)
Definition dangling : Collection :=
  mkCollection "C0000000000-EEDTEST" "DANGLING"
    [mkVariable "V0000000001-EEDTEST" "float32" "latitude"]
    [mkEdge 0 1].

End Load.

(** ** The connection settings of the two modules *)
Module Neo4jConfig.

(** [value || fallback] for a variable of [process.env], a string that may
    be [undefined]: the empty string is falsy too. *)
Definition orElse (value : option string) (fallback : string) : string :=
  match value with
  | None => fallback
  | Some EmptyString => fallback
  | Some v => v
  end.

(** [Neo4J.driver(url, Neo4J.auth.basic(username, password))]; the password
    is [undefined] when the variable is not set. *)
Record Driver := mkDriver {
  url : string;
  username : string;
  password : option string
}.

Inductive AccessMode := READ | WRITE.

(** [driver.session({ database, defaultAccessMode })]. *)
Record Session := mkSession {
  database : string;
  defaultAccessMode : AccessMode
}.

(** required-variables.ts *)
Module RequiredVariables.

Definition getNeo4jDriver (env : gmap string string) : Driver :=
  let neo4jProtocol := orElse (env !! "NEO4J_PROTOCOL") "bolt" in
  let neo4jHost := orElse (env !! "NEO4J_HOST") "localhost" in
  let neo4jPort := orElse (env !! "NEO4J_PORT") "7687" in
  let neo4jUrl := neo4jProtocol +:+ "://" +:+ neo4jHost +:+ ":" +:+ neo4jPort in
  let neo4jUsername := orElse (env !! "NEO4J_USERNAME") "neo4j" in
  let neo4jPassword := env !! "NEO4J_PASSWORD" in
  mkDriver neo4jUrl neo4jUsername neo4jPassword.

Definition getNeo4jSession (env : gmap string string) : Session :=
  let database := orElse (env !! "NEO4J_DATABASE") "neo4j" in
  mkSession database READ.

End RequiredVariables.

(** populate-graph.ts *)
Module PopulateGraph.

(** [process.env.NEO4J_PORT || 7687]: a string or the number. *)
Inductive Port :=
| PortString (s : string)
| PortNumber (n : N).

Definition orElsePort (value : option string) (fallback : N) : Port :=
  match value with
  | None => PortNumber fallback
  | Some EmptyString => PortNumber fallback
  | Some v => PortString v
  end.

(** A port inside a template literal: a number is written in decimal. *)
Definition portToString (p : Port) : string :=
  match p with
  | PortString s => s
  | PortNumber n => pretty n
  end.

Definition getNeo4jDriver (env : gmap string string) : Driver :=
  let neo4jProtocol := orElse (env !! "NEO4J_PROTOCOL") "bolt" in
  let neo4jHost := orElse (env !! "NEO4J_HOST") "localhost" in
  let neo4jPort := orElsePort (env !! "NEO4J_PORT") 7687%N in
  let neo4jUrl :=
    neo4jProtocol +:+ "://" +:+ neo4jHost +:+ ":" +:+ portToString neo4jPort in
  let neo4jUsername := orElse (env !! "NEO4J_USERNAME") "neo4j" in
  let neo4jPassword := env !! "NEO4J_PASSWORD" in
  mkDriver neo4jUrl neo4jUsername neo4jPassword.

Definition getNeo4jSession (env : gmap string string) : Session :=
  let neo4jDatabase := orElse (env !! "NEO4J_DATABASE") "neo4j" in
  mkSession neo4jDatabase WRITE.

End PopulateGraph.

End Neo4jConfig.

(** ** What [console.log] has written *)
Module Log.

(** The errors logged so far, in order. *)
Definition errorsLogged (w : RequiredVariables.World) : list RequiredVariables.JsError :=
  omap (fun ev => match ev with
                  | RequiredVariables.EvLog e => Some e
                  | _ => None
                  end)
       (RequiredVariables.events w).

End Log.

(** * Properties *)

Import Graph Cypher Closure RequiredVariables Fixtures.

(** ** The fixtures *)

(** The example of the docstring of [getVariableLabel]. *)
Example getVariableLabel_latitude :
  PopulateGraph.getVariableLabel "/gt1l/land_segments/latitude"
  = "gt1l_land_segments_latitude".
Proof. reflexivity. Qed.

(** The transaction of the script goes through, whatever was there before:
    22 vertices, 59 relationships. *)
Lemma populateDatabase_total before :
  PopulateGraph.populateDatabase before = database
  ∧ length (nodes database) = 22 ∧ length (rels database) = 59.
Proof. by vm_compute. Qed.

(** ** Paths *)

Section PathFacts.

Lemma picks_elem {A} (l : list A) x rest :
  (x, rest) ∈ picks l ↔ ∃ l1 l2, l = l1 ++ x :: l2 ∧ rest = l1 ++ l2.
Proof.
  revert x rest. induction l as [|y l IH]; intros x rest; simpl.
  - split; [by intros H%not_elem_of_nil|].
    intros (l1 & l2 & H & _). by destruct l1.
  - rewrite elem_of_cons, list_elem_of_fmap. split.
    + intros [H | ([z r] & H & Hin)].
      * injection H as -> ->. by exists [], l.
      * injection H as -> ->. apply IH in Hin as (l1 & l2 & -> & ->).
        by exists (y :: l1), l2.
    + intros (l1 & l2 & H & ->). destruct l1 as [|z l1]; simplify_eq/=.
      * by left.
      * right. exists (x, l1 ++ l2). split; [done|]. apply IH. eauto.
Qed.

Lemma picks_length {A} (l : list A) x rest :
  (x, rest) ∈ picks l → S (length rest) = length l.
Proof.
  intros (l1 & l2 & -> & ->)%picks_elem. rewrite !length_app. simpl. lia.
Qed.

Lemma bind_ext_elem {A B} (f g : A → list B) (l : list A) :
  (∀ x, x ∈ l → f x = g x) → l ≫= f = l ≫= g.
Proof.
  induction l as [|x l IH]; intros H; [done|]. simpl.
  rewrite (H x) by left. f_equal. apply IH. intros y Hy. apply H. by right.
Qed.

Lemma requiresIn_mono rs rs' a b :
  rs ⊆ rs' → requiresIn rs a b → requiresIn rs' a b.
Proof. intros Hsub (r & Hr & ?). exists r. split; [by apply Hsub | done]. Qed.

Lemma tc_mono {A} (R1 R2 : relation A) x y :
  (∀ a b, R1 a b → R2 a b) → tc R1 x y → tc R2 x y.
Proof.
  intros Hsub. induction 1 as [x y H | x y z H _ IH].
  - apply tc_once. auto.
  - eapply tc_l; eauto.
Qed.

(** Paths found by [pathEnds] follow requires edges. *)
Lemma pathEnds_sound fuel rs n v :
  v ∈ pathEnds fuel rs n → tc (requiresIn rs) n v.
Proof.
  revert rs n. induction fuel as [|fuel IH]; intros rs n; simpl.
  - by intros H%not_elem_of_nil.
  - intros ([r rest] & Hv & Hpick)%list_elem_of_bind.
    apply picks_elem in Hpick as (l1 & l2 & -> & ->).
    case_decide as Hr; [|by apply not_elem_of_nil in Hv]. destruct Hr as [<- Hty].
    assert (requiresIn (l1 ++ r :: l2) (rsrc r) (rdst r)) as Hstep.
    { exists r. split; [|done]. apply elem_of_app. right. by left. }
    apply elem_of_cons in Hv as [-> | Hv]; [by apply tc_once|].
    eapply tc_l; [exact Hstep|].
    eapply tc_mono; [|by apply IH].
    intros a b. apply requiresIn_mono.
    intros x [?|?]%elem_of_app; apply elem_of_app; [by left|by right; right].
Qed.

(** A walk that starts at [n] leaves [n] a last time; after that it only
    uses edges that start elsewhere. *)
Lemma tc_last_departure {A} `{EqDecision A} (R : relation A) (n x v : A) :
  tc R x v →
  tc (fun a b => R a b ∧ a ≠ n) x v
  ∨ ∃ m, R n m ∧ (m = v ∨ tc (fun a b => R a b ∧ a ≠ n) m v).
Proof.
  induction 1 as [x v H | x y v H _ IH].
  - destruct (decide (x = n)) as [-> | Hne].
    + right. exists v. auto.
    + left. by apply tc_once.
  - destruct IH as [IH | IH]; [|by right].
    destruct (decide (x = n)) as [-> | Hne].
    + right. exists y. auto.
    + left. eapply tc_l; [|exact IH]. done.
Qed.

Lemma tc_first_step {A} (R : relation A) x v :
  tc R x v → ∃ m, R x m.
Proof. destruct 1; eauto. Qed.

(** No path is left out, whatever cycles the graph has. *)
Lemma pathEnds_complete fuel rs n v :
  length rs ≤ fuel → tc (requiresIn rs) n v → v ∈ pathEnds fuel rs n.
Proof.
  revert rs n. induction fuel as [|fuel IH]; intros rs n Hlen Htc.
  - destruct rs; [|simpl in Hlen; lia].
    apply tc_first_step in Htc as (m & r & Hr & _). by apply not_elem_of_nil in Hr.
  - simpl.
    destruct (tc_last_departure _ n _ _ Htc) as [Hno | (m & Hstep & Hrest)].
    { apply tc_first_step in Hno as (m & _ & Hne). done. }
    destruct Hstep as (r & Hr & Hsrc & Hty & <-).
    apply list_elem_of_split in Hr as (l1 & l2 & ->).
    apply list_elem_of_bind. exists (r, l1 ++ l2). split.
    2:{ apply picks_elem. eauto. }
    rewrite decide_True by done.
    destruct Hrest as [<- | Hrest]; [by left|]. right.
    apply IH.
    { rewrite length_app in *. simpl in Hlen. lia. }
    eapply tc_mono; [|exact Hrest].
    intros a b [(r' & Hr' & Ha & Hty' & Hb) Hne].
    exists r'. split; [|done].
    apply elem_of_app. apply elem_of_app in Hr' as [?|Hr']; [by left|].
    apply elem_of_cons in Hr' as [-> | ?]; [congruence | by right].
Qed.

Lemma pathEnds_nil fuel n : pathEnds fuel [] n = [].
Proof. by destruct fuel. Qed.

(** More fuel than relationships changes nothing. *)
Lemma pathEnds_fuel fuel1 fuel2 rs n :
  length rs ≤ fuel1 → length rs ≤ fuel2 →
  pathEnds fuel1 rs n = pathEnds fuel2 rs n.
Proof.
  revert fuel2 rs n. induction fuel1 as [|fuel1 IH]; intros fuel2 rs n H1 H2.
  - destruct rs; [|simpl in H1; lia]. by rewrite !pathEnds_nil.
  - destruct fuel2 as [|fuel2].
    { destruct rs; [|simpl in H2; lia]. by rewrite !pathEnds_nil. }
    simpl. apply bind_ext_elem. intros [r rest] Hpick.
    apply picks_length in Hpick.
    case_decide; [|done]. f_equal. apply IH; lia.
Qed.

Lemma pathEnds_reach rs n v :
  v ∈ pathEnds (length rs) rs n ↔ tc (requiresIn rs) n v.
Proof.
  split; [apply pathEnds_sound | by apply pathEnds_complete].
Qed.

End PathFacts.

(** ** The query *)

Section QueryFacts.

Lemma matchRequired_reachable g ids v :
  v ∈ matchRequired g ids ↔ reachable g ids v.
Proof.
  unfold matchRequired, reachable, seed, requires. rewrite list_elem_of_bind. split.
  - intros ([i sn] & Hv & Hin). apply elem_of_lookup_imap in Hin as (i' & sn' & Heq & Hlook).
    simplify_eq. case_decide as Hs; [|by apply not_elem_of_nil in Hv].
    apply pathEnds_reach in Hv. exists i'. split; [|done]. exists sn'. tauto.
  - intros (s & (sn & Hlook & Hlab & Hid) & Htc).
    exists (s, sn). split.
    + rewrite decide_True by done. by apply pathEnds_reach.
    + apply elem_of_lookup_imap. eauto.
Qed.

Lemma requiredVariableQuery_elem g ids row :
  row ∈ requiredVariableQuery g ids ↔
  ∃ v n, reachable g ids v ∧ nodes g !! v = Some n
         ∧ row = mkRow (ConceptId n) (Name n).
Proof.
  unfold requiredVariableQuery. rewrite elem_of_remove_dups, list_elem_of_bind. split.
  - intros (v & Hrow & Hv). apply matchRequired_reachable in Hv.
    destruct (nodes g !! v) as [n|] eqn:Hn; [|by apply not_elem_of_nil in Hrow].
    apply list_elem_of_singleton in Hrow. eauto.
  - intros (v & n & Hv & Hn & ->). exists v. split.
    + rewrite Hn. by apply list_elem_of_singleton.
    + by apply matchRequired_reachable.
Qed.

Lemma requiredVariableQuery_ids g ids c :
  c ∈ map rowConceptId (requiredVariableQuery g ids) ↔
  ∃ v n, reachable g ids v ∧ nodes g !! v = Some n ∧ ConceptId n = c.
Proof.
  rewrite list_elem_of_fmap. split.
  - intros (row & -> & (v & n & ? & ? & ->)%requiredVariableQuery_elem). eauto.
  - intros (v & n & ? & ? & <-). exists (mkRow (ConceptId n) (Name n)).
    split; [done|]. apply requiredVariableQuery_elem. eauto.
Qed.

Lemma reachable_closed g ids : closedUnder g ids (reachable g ids).
Proof.
  split.
  - intros s m Hs Hr. exists s. split; [done | by apply tc_once].
  - intros a b (s & Hs & Htc) Hr. exists s. split; [done | by eapply tc_r].
Qed.

Lemma reachable_least g ids v : reachable g ids v ↔ leastClosed g ids v.
Proof.
  split.
  - intros (s & Hs & Htc) X [Hseed Hstep]. revert v Htc.
    apply tc_ind_r; eauto.
  - intros H. apply H, reachable_closed.
Qed.

Lemma runs_app w es :
  runs (mkWorld (heap w) (events w ++ es)) = runs w + length (filter isRun es).
Proof. unfold runs. simpl. by rewrite filter_app, length_app. Qed.

Lemma getRequiredVariables_run server ids w :
  getRequiredVariables server ids w =
  match server (runs w) requiredVariableQuery ids with
  | Resolved rows =>
      (Resolved (Array (map variableOfRecord rows)),
       mkWorld (heap w) (events w ++ queryEvents ids None))
  | Rejected e =>
      (Resolved Undefined,
       mkWorld (heap w) (events w ++ queryEvents ids (Some e)))
  end.
Proof.
  unfold getRequiredVariables, performCypherQuery, finally, catch, then_,
    session_run, getNeo4jDriver, getNeo4jSession, session_close, driver_close,
    console_log, extractVariableResults, emit, mbind, mret, Promise_bind, Promise_ret.
  simpl.
  replace (runs _) with (runs w).
  2:{ unfold runs. simpl. by rewrite !filter_app, !app_nil_r. }
  destruct (server (runs w) requiredVariableQuery ids); simpl;
    by rewrite <- !app_assoc.
Qed.

End QueryFacts.

(** ** The merge *)

Section MergeFacts.

Lemma some_same_id_spec vs v :
  some_same_id vs v = true ↔ concept_id v ∈ map concept_id vs.
Proof.
  unfold some_same_id. rewrite existsb_exists, list_elem_of_fmap. split.
  - intros (x & Hx & Heq). apply bool_decide_eq_true in Heq.
    exists x. split; [done | by apply list_elem_of_In].
  - intros (x & Heq & Hx). exists x. split; [by apply list_elem_of_In|].
    by apply bool_decide_eq_true.
Qed.

Lemma merge_cons vs r rs :
  merge vs (r :: rs) =
  merge (if negb (some_same_id vs r) then vs ++ [r] else vs) rs.
Proof. done. Qed.

Lemma filter_ext_elem {A} (P Q : A → Prop) `{∀ x, Decision (P x)} `{∀ x, Decision (Q x)}
    (l : list A) :
  (∀ x, x ∈ l → P x ↔ Q x) → filter P l = filter Q l.
Proof.
  induction l as [|x l IH]; intros Hext; [done|].
  rewrite !filter_cons.
  rewrite IH by (intros y Hy; apply Hext; by right).
  destruct (decide (P x)) as [HP|HP], (decide (Q x)) as [HQ|HQ]; try done;
    exfalso; apply (Hext x) in HP || apply (Hext x) in HQ; try done; by left.
Qed.

(** What [merge] appends: the variables of [rs] whose identifier is new,
    each identifier once, in the order of [rs]. *)
Lemma merge_spec vs rs :
  ∃ appended,
    merge vs rs = vs ++ appended
    ∧ (∀ c, c ∈ map concept_id appended ↔
            c ∈ map concept_id rs ∧ c ∉ map concept_id vs)
    ∧ NoDup (map concept_id appended)
    ∧ (NoDup (map concept_id rs) →
       appended = filter (fun v => concept_id v ∉ map concept_id vs) rs).
Proof.
  revert vs. induction rs as [|r rs IH]; intros vs.
  - exists []. simpl. rewrite app_nil_r.
    split; [done|]. split; [|split; [constructor | done]].
    intros c. split; [by intros ?%not_elem_of_nil | by intros [?%not_elem_of_nil _]].
  - rewrite merge_cons. destruct (some_same_id vs r) eqn:Hsome; simpl.
    + apply some_same_id_spec in Hsome.
      destruct (IH vs) as (app & Heq & Hids & Hnd & Hfil).
      exists app. split; [done|]. split; [|split; [done|]].
      * intros c. rewrite Hids, elem_of_cons. split; [tauto|].
        intros [[-> | ?] ?]; tauto.
      * intros Hnd'. apply NoDup_cons in Hnd' as [_ Hnd'].
        rewrite filter_cons, decide_False by (intros Hn; by apply Hn). auto.
    + assert (concept_id r ∉ map concept_id vs) as Hnew.
      { intros Hin%some_same_id_spec. congruence. }
      destruct (IH (vs ++ [r])) as (app & Heq & Hids & Hnd & Hfil).
      exists (r :: app). rewrite Heq, <- app_assoc. simpl.
      assert (∀ c, c ∈ map concept_id (vs ++ [r]) ↔
                   c ∈ map concept_id vs ∨ c = concept_id r) as Hsnoc.
      { intros c. rewrite map_app, elem_of_app. simpl.
        by rewrite list_elem_of_singleton. }
      split; [done|]. split; [|split].
      * intros c. rewrite !elem_of_cons, Hids, Hsnoc.
        destruct (decide (c = concept_id r)) as [->|Hne]; tauto.
      * apply NoDup_cons. split; [|done].
        rewrite Hids, Hsnoc. tauto.
      * intros Hnd'. apply NoDup_cons in Hnd' as [Hr Hnd'].
        rewrite filter_cons, decide_True by done. f_equal.
        rewrite (Hfil Hnd'). apply filter_ext_elem.
        intros x Hx. rewrite Hsnoc. split; [tauto|].
        intros Hn [?|Hin]; [done|].
        apply Hr. rewrite <- Hin. by apply list_elem_of_fmap_2.
Qed.

Lemma merge_ids vs rs c :
  c ∈ map concept_id (merge vs rs) ↔
  c ∈ map concept_id vs ∨ c ∈ map concept_id rs.
Proof.
  destruct (merge_spec vs rs) as (app & -> & Hids & _).
  rewrite map_app, elem_of_app, Hids.
  destruct (decide (c ∈ map concept_id vs)); tauto.
Qed.

(** Nothing is appended when every identifier is there already. *)
Lemma merge_present vs rs :
  (∀ c, c ∈ map concept_id rs → c ∈ map concept_id vs) → merge vs rs = vs.
Proof.
  intros Hall. destruct (merge_spec vs rs) as (app & -> & Hids & _).
  destruct app as [|v app]; [by rewrite app_nil_r|].
  destruct (Hids (concept_id v)) as [[Hin Hn] _]; [by left|].
  by apply Hall in Hin.
Qed.

End MergeFacts.

(** ** One step of the loop *)

Section AugmentFacts.
Variable server : Server.

Lemma world_eta w : mkWorld (heap w) (events w) = w.
Proof. by destruct w. Qed.

Lemma forEach_cons {A} (x : A) l body w :
  forEach (x :: l) body w =
  match body x w with
  | (Resolved _, w') => forEach l body w'
  | (Rejected e, w') => (Rejected e, w')
  end.
Proof. done. Qed.

Lemma forEach_app {A} (l1 l2 : list A) body w :
  forEach (l1 ++ l2) body w =
  match forEach l1 body w with
  | (Resolved _, w') => forEach l2 body w'
  | (Rejected e, w') => (Rejected e, w')
  end.
Proof.
  revert w. induction l1 as [|x l1 IH]; intros w; [done|].
  simpl app. rewrite !forEach_cons.
  destruct (body x w) as [[[]|e] w']; [apply IH | done].
Qed.

Lemma forEach_pushIfMissing a rs vs w :
  heap w !! a = Some vs →
  forEach rs (pushIfMissing a) w =
  (Resolved tt, mkWorld (<[a := merge vs rs]> (heap w)) (events w)).
Proof.
  revert vs w. induction rs as [|r rs IH]; intros vs w Hvs.
  - simpl. unfold mret, Promise_ret. by rewrite insert_id, world_eta.
  - rewrite forEach_cons, merge_cons.
    unfold pushIfMissing, readArray, push, mbind, Promise_bind, mret, Promise_ret.
    rewrite Hvs. destruct (some_same_id vs r); simpl.
    + by apply IH.
    + rewrite Hvs.
      erewrite IH by (simpl; apply lookup_insert_eq).
      simpl. by rewrite insert_insert_eq.
Qed.

Lemma augment_absent varInfo w :
  variables varInfo = None → augment server varInfo w = (Resolved tt, w).
Proof. intros H. unfold augment. by rewrite H. Qed.

Lemma augment_not_array varInfo a w :
  variables varInfo = Some a → heap w !! a = None →
  augment server varInfo w = (Rejected notArray, w).
Proof.
  intros H Hh. unfold augment, readArray, mbind, Promise_bind.
  by rewrite H, Hh.
Qed.

Lemma augment_run varInfo a vs w :
  variables varInfo = Some a → heap w !! a = Some vs →
  augment server varInfo w =
  match server (runs w) requiredVariableQuery (map concept_id vs) with
  | Resolved rows =>
      (Resolved tt,
       mkWorld (<[a := merge vs (map variableOfRecord rows)]> (heap w))
               (events w ++ queryEvents (map concept_id vs) None))
  | Rejected e =>
      (Rejected undefinedForEach,
       mkWorld (heap w) (events w ++ queryEvents (map concept_id vs) (Some e)))
  end.
Proof.
  intros H Hh. unfold augment. rewrite H.
  unfold mbind, Promise_bind, readArray at 1. rewrite Hh.
  rewrite getRequiredVariables_run.
  destruct (server _ _ _) as [rows|e]; [|done].
  by erewrite forEach_pushIfMissing by exact Hh.
Qed.

(** The three ways one step of the loop can go. *)
Lemma augment_cases varInfo w :
  (variables varInfo = None ∧ augment server varInfo w = (Resolved tt, w))
  ∨ (∃ a, variables varInfo = Some a ∧ heap w !! a = None
          ∧ augment server varInfo w = (Rejected notArray, w))
  ∨ (∃ a vs rows, variables varInfo = Some a ∧ heap w !! a = Some vs
          ∧ server (runs w) requiredVariableQuery (map concept_id vs) = Resolved rows
          ∧ augment server varInfo w =
            (Resolved tt,
             mkWorld (<[a := merge vs (map variableOfRecord rows)]> (heap w))
                     (events w ++ queryEvents (map concept_id vs) None)))
  ∨ (∃ a vs e, variables varInfo = Some a ∧ heap w !! a = Some vs
          ∧ server (runs w) requiredVariableQuery (map concept_id vs) = Rejected e
          ∧ augment server varInfo w =
            (Rejected undefinedForEach,
             mkWorld (heap w) (events w ++ queryEvents (map concept_id vs) (Some e)))).
Proof.
  destruct (variables varInfo) as [a|] eqn:Hv.
  2:{ left. split; [done | by apply augment_absent]. }
  right. destruct (heap w !! a) as [vs|] eqn:Hh.
  2:{ left. exists a. split; [done|]. split; [done | by eapply augment_not_array]. }
  right. pose proof (augment_run varInfo a vs w Hv Hh) as Hrun.
  destruct (server _ _ _) as [rows|e] eqn:Hs.
  - left. by exists a, vs, rows.
  - right. by exists a, vs, e.
Qed.


(** A step only appends. *)
Lemma augment_extends varInfo w r w' b vs :
  augment server varInfo w = (r, w') → heap w !! b = Some vs →
  ∃ appended, heap w' !! b = Some (vs ++ appended).
Proof.
  intros H Hb.
  destruct (augment_cases varInfo w)
    as [[_ Hr] | [(a & _ & _ & Hr) | [(a & vs' & rows & _ & Ha & _ & Hr)
       | (a & vs' & e' & _ & _ & _ & Hr)]]];
    rewrite Hr in H; simplify_eq; simpl;
    try (exists []; by rewrite app_nil_r).
  destruct (decide (a = b)) as [->|Hne].
  - rewrite lookup_insert_eq. simplify_eq.
    destruct (merge_spec vs (map variableOfRecord rows)) as (app & -> & _). eauto.
  - rewrite lookup_insert_ne by done. exists []. by rewrite app_nil_r.
Qed.

(** A step leaves the arrays of other addresses alone. *)
Lemma augment_other varInfo w r w' b :
  augment server varInfo w = (r, w') → variables varInfo ≠ Some b →
  heap w' !! b = heap w !! b.
Proof.
  intros H Hb.
  destruct (augment_cases varInfo w)
    as [[_ Hr] | [(a & _ & _ & Hr) | [(a & vs' & rows & Hv & Ha & _ & Hr)
       | (a & vs' & e' & _ & _ & _ & Hr)]]];
    rewrite Hr in H; simplify_eq; simpl; try done.
  apply lookup_insert_ne. congruence.
Qed.

(** A step that completes sends one query if the entry has variables, and
    none otherwise. *)
Lemma augment_runs varInfo w w' :
  augment server varInfo w = (Resolved tt, w') →
  runs w' = runs w + length (withVariables [varInfo]).
Proof.
  intros H. unfold withVariables. rewrite filter_cons, filter_nil.
  destruct (augment_cases varInfo w)
    as [[Hv Hr] | [(a & _ & _ & Hr) | [(a & vs' & rows & Hv & Ha & _ & Hr)
       | (a & vs' & e' & _ & _ & _ & Hr)]]];
    rewrite Hr in H; simplify_eq.
  - rewrite Hv. rewrite decide_False by (by intros [? ?]). simpl. lia.
  - rewrite Hv. rewrite decide_True by eauto.
    change (mkWorld _ (events w ++ ?es)) with
      (mkWorld (heap (mkWorld (<[a:=merge vs' (map variableOfRecord rows)]> (heap w)) (events w)))
         (events (mkWorld (<[a:=merge vs' (map variableOfRecord rows)]> (heap w)) (events w)) ++ es)).
    rewrite runs_app. done.
Qed.

Lemma addRequiredVariables_run varInfos w :
  addRequiredVariables server varInfos w =
  match forEach varInfos (augment server) w with
  | (Resolved _, w') => (Resolved varInfos, w')
  | (Rejected e, w') => (Rejected e, w')
  end.
Proof. done. Qed.

End AugmentFacts.

(** ** The loop *)

Section LoopFacts.
Variable server : Server.

Lemma withVariables_cons varInfo varInfos :
  length (withVariables (varInfo :: varInfos)) =
  length (withVariables [varInfo]) + length (withVariables varInfos).
Proof.
  unfold withVariables. rewrite !filter_cons, filter_nil.
  by destruct (decide (is_Some (variables varInfo))).
Qed.

(** The loop only appends, leaves alone the arrays no entry refers to, and
    sends one query per entry that has variables. *)
Lemma forEach_augment_frame varInfos w w' :
  forEach varInfos (augment server) w = (Resolved tt, w') →
  (∀ a vs, heap w !! a = Some vs → ∃ appended, heap w' !! a = Some (vs ++ appended))
  ∧ (∀ a, (∀ varInfo, varInfo ∈ varInfos → variables varInfo ≠ Some a) →
          heap w' !! a = heap w !! a)
  ∧ runs w' = runs w + length (withVariables varInfos).
Proof.
  revert w. induction varInfos as [|varInfo varInfos IH]; intros w H.
  - simpl in H. unfold mret, Promise_ret in H. simplify_eq.
    split; [|split; [done | simpl; lia]].
    intros a vs ->. exists []. by rewrite app_nil_r.
  - rewrite forEach_cons in H.
    destruct (augment server varInfo w) as [[[]|e] w1] eqn:Hstep; [|done].
    destruct (IH _ H) as (Hext & Hoth & Hruns).
    split; [|split].
    + intros a vs Ha.
      destruct (augment_extends _ _ _ _ _ _ _ Hstep Ha) as (app1 & Ha1).
      destruct (Hext _ _ Ha1) as (app2 & Ha2).
      exists (app1 ++ app2). by rewrite app_assoc.
    + intros a Ha. rewrite Hoth.
      * eapply augment_other; [done|]. apply Ha. by left.
      * intros vi Hvi. apply Ha. by right.
    + rewrite Hruns, (augment_runs _ _ _ _ Hstep), (withVariables_cons varInfo varInfos). lia.
Qed.

(** Where a loop fails: the entries before were processed, one entry failed,
    the rest was not looked at. *)
Lemma forEach_rejected {A} (body : A → Promise unit) l w e w' :
  forEach l body w = (Rejected e, w') →
  ∃ processed x rest w1,
    l = processed ++ x :: rest
    ∧ forEach processed body w = (Resolved tt, w1)
    ∧ body x w1 = (Rejected e, w').
Proof.
  revert w. induction l as [|x l IH]; intros w H; [done|].
  rewrite forEach_cons in H.
  destruct (body x w) as [[[]|e1] w1] eqn:Hstep.
  - destruct (IH _ H) as (processed & y & rest & w2 & -> & Hp & Hy).
    exists (x :: processed), y, rest, w2.
    split; [done|]. split; [|done]. by rewrite forEach_cons, Hstep.
  - simplify_eq. by exists [], x, l, w.
Qed.

End LoopFacts.

(** C10. On success [addRequiredVariables] returns the array it was given;
    every array of requested variables keeps its elements at their indices
    and only grows at the end; arrays that no entry refers to are as before;
    an entry without a [variables] property is passed over, and the number
    of queries sent is the number of entries that have one. *)
Theorem addRequiredVariables_frame server varInfos w r w' :
  addRequiredVariables server varInfos w = (Resolved r, w') →
  r = varInfos
  ∧ (∀ a vs, heap w !! a = Some vs →
       ∃ appended, heap w' !! a = Some (vs ++ appended))
  ∧ (∀ a vs i v, heap w !! a = Some vs → vs !! i = Some v →
       ∃ vs', heap w' !! a = Some vs' ∧ vs' !! i = Some v)
  ∧ (∀ a, (∀ varInfo, varInfo ∈ varInfos → variables varInfo ≠ Some a) →
       heap w' !! a = heap w !! a)
  ∧ (∀ varInfo w0, variables varInfo = None →
       augment server varInfo w0 = (Resolved tt, w0))
  ∧ runs w' = runs w + length (withVariables varInfos).
Proof.
  rewrite addRequiredVariables_run.
  destruct (forEach varInfos (augment server) w) as [[[]|e] w1] eqn:Hloop; [|done].
  intros H. simplify_eq.
  destruct (forEach_augment_frame _ _ _ _ Hloop) as (Hext & Hoth & Hruns).
  split; [done|]. split; [done|]. split; [|split; [done|split; [|done]]].
  - intros a vs i v Ha Hi. destruct (Hext _ _ Ha) as (app & Ha').
    exists (vs ++ app). split; [done|]. by apply lookup_app_l_Some.
  - intros varInfo w0. apply augment_absent.
Qed.

Lemma addRequiredVariables_frame_witness :
  let request := [atl08Request; mkVariableInfo "C1238392622-EEDTEST" None] in
  ∃ w', addRequiredVariables (neo4j database) request requestWorld
        = (Resolved request, w')
        ∧ (∃ appended, heap w' !! 0 = Some ([P0] ++ appended))
        ∧ heap w' !! 1 = Some [rainfall_rate]
        ∧ runs w' = 1.
Proof.
  intros request. eexists.
  assert (addRequiredVariables (neo4j database) request requestWorld
          = (Resolved request,
             mkWorld {[ 0 := P0 :: atl08Returned; 1 := [rainfall_rate] ]}
                     (queryEvents ["V1237330160-EEDTEST"] None))) as Hrun
    by (vm_compute; reflexivity).
  destruct (addRequiredVariables_frame _ _ _ _ _ Hrun)
    as (_ & Hext & _ & Hoth & _ & Hruns).
  split; [exact Hrun|]. split; [|split].
  - apply (Hext 0 [P0]). reflexivity.
  - rewrite (Hoth 1); [reflexivity|].
    intros varInfo [-> | [-> | []%not_elem_of_nil]%elem_of_cons]%elem_of_cons;
      discriminate.
  - exact Hruns.
Defined.

(** ** Failure *)




(** C1, as the code has it. When [session.run] rejects with [e] (the
    store cannot be reached, the query cannot complete), the error is
    caught and logged in [performCypherQuery] and goes no further: the
    promise of [performCypherQuery] is not rejected, nor is that of
    [getRequiredVariables]; session and driver are closed and no array is
    touched. This holds for the query of any entry, at any point of a
    run. *)
Theorem store_failure_logged server ids e w :
  server (runs w) requiredVariableQuery ids = Rejected e →
  (∃ value,
     performCypherQuery server requiredVariableQuery ids extractVariableResults w
     = (Resolved value,
        mkWorld (heap w) (events w ++ [EvRun ids; EvLog e; EvSessionClose])))
  ∧ (∃ value,
       getRequiredVariables server ids w
       = (Resolved value,
          mkWorld (heap w) (events w ++ queryEvents ids (Some e))))
  ∧ (∀ e', (getRequiredVariables server ids w).1 ≠ Rejected e').
Proof.
  intros Hs. split; [|split].
  - exists Undefined.
    unfold performCypherQuery, finally, catch, then_, session_run, session_close,
      console_log, emit, mbind, mret, Promise_bind, Promise_ret.
    rewrite Hs. simpl. by rewrite <- !app_assoc.
  - exists Undefined. by rewrite getRequiredVariables_run, Hs.
  - intros e'. by rewrite getRequiredVariables_run, Hs.
Qed.

Lemma store_failure_logged_witness :
  ∃ value,
    getRequiredVariables unreachable ["V1237330160-EEDTEST"] requestWorld
    = (Resolved value,
       mkWorld (heap requestWorld)
         (queryEvents ["V1237330160-EEDTEST"]
                      (Some (Neo4jError "ServiceUnavailable")))).
Proof.
  destruct (store_failure_logged unreachable ["V1237330160-EEDTEST"]
              (Neo4jError "ServiceUnavailable") requestWorld) as (_ & H & _).
  - reflexivity.
  - exact H.
Defined.

(** C1, as stated, fails: with the server out of reach the query is
    rejected, yet [getRequiredVariables] resolves, and what
    [addRequiredVariables] raises is a [TypeError], not the error of the
    store. *)
Lemma store_error_not_surfaced :
  unreachable (runs requestWorld) requiredVariableQuery ["V1237330160-EEDTEST"]
  = Rejected (Neo4jError "ServiceUnavailable")
  ∧ (getRequiredVariables unreachable ["V1237330160-EEDTEST"] requestWorld).1
    = Resolved Undefined
  ∧ (addRequiredVariables unreachable [atl08Request] requestWorld).1
    = Rejected (TypeError "Cannot read properties of undefined (reading 'forEach')")
  ∧ (addRequiredVariables unreachable [atl08Request] requestWorld).1
    ≠ Rejected (Neo4jError "ServiceUnavailable").
Proof.
  split; [reflexivity|]. split; [by vm_compute|]. split; [by vm_compute|].
  vm_compute. discriminate.
Qed.

(** ** Empty requests and the merge step *)

Lemma neo4j_answers g : answers g (neo4j g).
Proof. intros k ids. by exists (requiredVariableQuery g ids). Qed.

(** No seed, no row. *)
Lemma requiredVariableQuery_nil g : requiredVariableQuery g [] = [].
Proof.
  apply elem_of_nil_inv. intros row Hrow.
  apply requiredVariableQuery_elem in Hrow
    as (v & n & (s & (sn & _ & _ & Hin) & _) & _).
  by apply not_elem_of_nil in Hin.
Qed.

Lemma filter_none {A} (P : A → Prop) `{∀ x, Decision (P x)} (l : list A) :
  (∀ x, x ∈ l → ¬ P x) → filter P l = [].
Proof.
  intros Hno. apply elem_of_nil_inv. intros x [HP Hx]%list_elem_of_filter.
  by apply (Hno x).
Qed.

(** C3, as the code has it. With every requested array empty and a server
    that answers, the operation returns its argument and changes no array.
    It sends no query for an entry without a [variables] property; for each
    entry whose [variables] array is there and empty it sends one query,
    with an empty list of identifiers. *)
Theorem empty_request_unchanged g server varInfos w :
  answers g server →
  (∀ varInfo a, varInfo ∈ varInfos → variables varInfo = Some a →
                heap w !! a = Some []) →
  ∃ w', addRequiredVariables server varInfos w = (Resolved varInfos, w')
        ∧ heap w' = heap w
        ∧ events w' =
          events w ++ concat (map (fun _ => queryEvents [] None) (withVariables varInfos))
        ∧ runs w' = runs w + length (withVariables varInfos).
Proof.
  intros Hans Hempty. rewrite addRequiredVariables_run.
  cut (∃ w', forEach varInfos (augment server) w = (Resolved tt, w')
             ∧ heap w' = heap w
             ∧ events w' = events w ++
                 concat (map (fun _ => queryEvents [] None) (withVariables varInfos))).
  { intros (w' & Hloop & Hheap & Hev). exists w'. rewrite Hloop.
    split; [done|]. split; [done|]. split; [done|].
    by destruct (forEach_augment_frame _ _ _ _ Hloop) as (_ & _ & ?). }
  revert w Hempty. induction varInfos as [|varInfo varInfos IH]; intros w Hempty.
  - exists w. simpl. by rewrite app_nil_r.
  - rewrite forEach_cons.
    assert (∃ w1, augment server varInfo w = (Resolved tt, w1)
                  ∧ heap w1 = heap w
                  ∧ events w1 = events w ++
                      concat (map (fun _ => queryEvents [] None) (withVariables [varInfo])))
      as (w1 & Hstep & Hheap1 & Hev1).
    { unfold withVariables. rewrite filter_cons, filter_nil.
      destruct (variables varInfo) as [a|] eqn:Hv.
      - assert (heap w !! a = Some []) as Ha by (apply (Hempty varInfo); [by left | done]).
        rewrite (augment_run _ _ _ _ _ Hv Ha). simpl map.
        destruct (Hans (runs w) []) as (rows & -> & Hperm).
        rewrite requiredVariableQuery_nil in Hperm. apply Permutation_nil_r in Hperm as ->.
        eexists. split; [done|]. simpl heap. split; [by apply insert_id|].
        destruct (decide (is_Some (Some a))) as [_|Hn]; [|by destruct Hn].
        cbn [events map concat]. by rewrite app_nil_r.
      - exists w. rewrite augment_absent by done. split; [done|]. split; [done|].
        destruct (decide (is_Some (@None nat))) as [[? ?]|_]; [done|].
        cbn [map concat]. by rewrite app_nil_r. }
    rewrite Hstep.
    destruct (IH w1) as (w' & Hloop & Hheap & Hev).
    { intros vi a Hvi Ha. rewrite Hheap1. apply (Hempty vi); [by right | done]. }
    exists w'. split; [done|]. split; [congruence|].
    rewrite Hev, Hev1, <- app_assoc. f_equal.
    unfold withVariables. rewrite !filter_cons, filter_nil.
    destruct (decide (is_Some (variables varInfo))); cbn [map concat app];
      by rewrite ?app_nil_r.
Qed.

Lemma empty_request_unchanged_witness :
  ∃ w', addRequiredVariables (neo4j database)
          [emptyRequest; mkVariableInfo "C1238392622-EEDTEST" None] emptyWorld
        = (Resolved [emptyRequest; mkVariableInfo "C1238392622-EEDTEST" None], w')
        ∧ heap w' = heap emptyWorld
        ∧ events w' = queryEvents [] None
        ∧ runs w' = 1.
Proof.
  destruct (empty_request_unchanged database (neo4j database)
              [emptyRequest; mkVariableInfo "C1238392622-EEDTEST" None] emptyWorld)
    as (w' & H1 & H2 & H3 & H4).
  - intros k ids. exists (requiredVariableQuery database ids). split; reflexivity.
  - intros varInfo a Hin Hv.
    apply elem_of_cons in Hin as [-> | Hin].
    + injection Hv as <-. reflexivity.
    + apply list_elem_of_singleton in Hin as ->. discriminate Hv.
  - exists w'. split; [exact H1|]. split; [exact H2|]. split; [exact H3 | exact H4].
Defined.

(** C3, as stated, fails: the requested array is empty, the result is
    unchanged, and one query has been sent all the same. *)
Lemma empty_request_still_queries :
  let outcome := addRequiredVariables (neo4j database) [emptyRequest] emptyWorld in
  heap emptyWorld !! 0 = Some []
  ∧ outcome.1 = Resolved [emptyRequest]
  ∧ heap outcome.2 = heap emptyWorld
  ∧ events outcome.2 = [EvDriver; EvSession; EvRun []; EvSessionClose; EvDriverClose]
  ∧ runs emptyWorld = 0
  ∧ runs outcome.2 = 1.
Proof.
  assert (addRequiredVariables (neo4j database) [emptyRequest] emptyWorld
          = (Resolved [emptyRequest], mkWorld (heap emptyWorld) (queryEvents [] None)))
    as -> by (vm_compute; reflexivity).
  repeat split.
Qed.

(** One entry whose query is answered. *)
Lemma addRequiredVariables_single server varInfo a vs rows w :
  variables varInfo = Some a →
  heap w !! a = Some vs →
  server (runs w) requiredVariableQuery (map concept_id vs) = Resolved rows →
  addRequiredVariables server [varInfo] w =
  (Resolved [varInfo],
   mkWorld (<[a := merge vs (map variableOfRecord rows)]> (heap w))
           (events w ++ queryEvents (map concept_id vs) None)).
Proof.
  intros Hv Ha Hs. rewrite addRequiredVariables_run, forEach_cons.
  by rewrite (augment_run _ _ _ _ _ Hv Ha), Hs.
Qed.

(** C4. For one entry whose query returned [rows]: the array afterwards is
    the original one followed by [appended]; the identifiers appended are
    exactly those of the closure that the original array lacks, each once;
    when the closure names every identifier once, [appended] is the closure
    without the variables already requested, in the order returned; and an
    identifier of the original array occurs as often afterwards as
    before. *)
Theorem merge_appends_missing server varInfo a original rows w :
  variables varInfo = Some a →
  heap w !! a = Some original →
  server (runs w) requiredVariableQuery (map concept_id original) = Resolved rows →
  let closure := map variableOfRecord rows in
  ∃ appended w',
    addRequiredVariables server [varInfo] w = (Resolved [varInfo], w')
    ∧ heap w' = <[a := original ++ appended]> (heap w)
    ∧ (∀ c, c ∈ map concept_id appended ↔
            c ∈ map concept_id closure ∧ c ∉ map concept_id original)
    ∧ NoDup (map concept_id appended)
    ∧ (NoDup (map concept_id closure) →
       appended = filter (fun v => concept_id v ∉ map concept_id original) closure)
    ∧ (∀ c, c ∈ map concept_id original →
            occurrences c (original ++ appended) = occurrences c original).
Proof.
  intros Hv Ha Hs closure.
  destruct (merge_spec original closure) as (appended & Hm & Hids & Hnd & Hfil).
  exists appended. eexists. split.
  { by apply addRequiredVariables_single. }
  simpl. fold closure. rewrite Hm.
  split; [done|]. split; [done|]. split; [done|]. split; [done|].
  intros c Hc. unfold occurrences. rewrite filter_app, length_app.
  rewrite (filter_none _ appended); [simpl; lia|].
  intros v Hvin Heq. destruct (Hids c) as [[_ Hn] _]; [|done].
  rewrite <- Heq. by apply list_elem_of_fmap_2.
Qed.

Lemma merge_appends_missing_witness :
  ∃ appended w',
    addRequiredVariables (neo4j database) [atl08Request] requestWorld
    = (Resolved [atl08Request], w')
    ∧ heap w' = <[0 := [P0] ++ appended]> (heap requestWorld)
    ∧ NoDup (map concept_id appended)
    ∧ occurrences "V1237330160-EEDTEST" ([P0] ++ appended) = 1.
Proof.
  destruct (merge_appends_missing (neo4j database) atl08Request 0 [P0]
              (requiredVariableQuery database ["V1237330160-EEDTEST"]) requestWorld)
    as (appended & w' & H1 & H2 & _ & H4 & _ & H6).
  - reflexivity.
  - reflexivity.
  - reflexivity.
  - exists appended, w'. split; [exact H1|]. split; [exact H2|]. split; [exact H4|].
    apply (H6 "V1237330160-EEDTEST"). left.
Defined.

(** ** Idempotence *)

Section Idempotence.
Variable g : Graph.t.
Variable server : Server.
Hypothesis Hunique : uniqueIds g.
Hypothesis Hanswers : answers g server.

Lemma reachable_mono ids ids' v :
  (∀ c, c ∈ ids → c ∈ ids') → reachable g ids v → reachable g ids' v.
Proof.
  intros Hsub (s & (sn & ? & ? & ?) & ?). exists s. split; [|done].
  exists sn. auto.
Qed.

(** What is required by a required variable is required. *)
Lemma query_transitive ids ids' c :
  (∀ c', c' ∈ ids' →
         c' ∈ ids ∨ c' ∈ map rowConceptId (requiredVariableQuery g ids)) →
  c ∈ map rowConceptId (requiredVariableQuery g ids') →
  c ∈ map rowConceptId (requiredVariableQuery g ids).
Proof.
  intros Hsub (v & n & (s & (sn & Hs & Hlab & Hin) & Htc) & Hv & <-)%requiredVariableQuery_ids.
  apply requiredVariableQuery_ids. exists v, n. split; [|done].
  destruct (Hsub _ Hin) as [Hin' | Hin'].
  - exists s. split; [|done]. by exists sn.
  - apply requiredVariableQuery_ids in Hin' as (v0 & n0 & (s0 & Hs0 & Htc0) & Hv0 & Heq).
    assert (v0 = s) as ->.
    { eapply (NoDup_lookup _ _ _ _ Hunique).
      - by rewrite list_lookup_fmap, Hv0.
      - rewrite list_lookup_fmap, Hs. simpl. by rewrite Heq. }
    exists s0. split; [done|]. by eapply tc_trans.
Qed.

Lemma variableOfRecord_ids rows :
  map concept_id (map variableOfRecord rows) = map rowConceptId rows.
Proof. rewrite map_map. by apply map_ext. Qed.

Lemma answers_ids k ids rows c :
  server k requiredVariableQuery ids = Resolved rows →
  c ∈ map rowConceptId rows ↔ c ∈ map rowConceptId (requiredVariableQuery g ids).
Proof.
  intros Hs. destruct (Hanswers k ids) as (rows' & Hs' & Hperm).
  rewrite Hs in Hs'. simplify_eq. by rewrite Hperm.
Qed.

(** After a step the array of the entry holds whatever its variables
    require. *)
Lemma augment_closes varInfo a vs w :
  variables varInfo = Some a → heap w !! a = Some vs →
  ∃ w', augment server varInfo w = (Resolved tt, w') ∧ closedAt g (heap w') a.
Proof.
  intros Hv Ha. rewrite (augment_run _ _ _ _ _ Hv Ha).
  destruct (Hanswers (runs w) (map concept_id vs)) as (rows & Hs & Hperm).
  rewrite Hs. eexists. split; [done|]. simpl.
  eexists. split; [apply lookup_insert_eq|].
  intros c Hc. apply merge_ids. rewrite variableOfRecord_ids.
  rewrite (answers_ids _ _ _ _ Hs).
  assert (c ∈ map rowConceptId (requiredVariableQuery g (map concept_id vs))); [|by right].
  eapply query_transitive; [|exact Hc].
  intros c' [?|Hc']%merge_ids; [by left | right].
  rewrite variableOfRecord_ids in Hc'. by apply (answers_ids _ _ _ _ Hs).
Qed.

(** A step on an array that holds whatever its variables require changes no
    array. *)
Lemma augment_noop varInfo a w :
  variables varInfo = Some a → closedAt g (heap w) a →
  ∃ w', augment server varInfo w = (Resolved tt, w') ∧ heap w' = heap w.
Proof.
  intros Hv (vs & Ha & Hclosed). rewrite (augment_run _ _ _ _ _ Hv Ha).
  destruct (Hanswers (runs w) (map concept_id vs)) as (rows & Hs & Hperm).
  rewrite Hs. eexists. split; [done|]. simpl.
  rewrite merge_present; [by apply insert_id|].
  intros c Hc. rewrite variableOfRecord_ids in Hc.
  apply Hclosed. by apply (answers_ids _ _ _ _ Hs).
Qed.

Lemma augment_preserves_closed varInfo w w' a :
  augment server varInfo w = (Resolved tt, w') →
  closedAt g (heap w) a → closedAt g (heap w') a.
Proof.
  intros Hstep Hclosed.
  destruct (decide (variables varInfo = Some a)) as [Hv|Hv].
  - destruct Hclosed as (vs & Ha & _).
    destruct (augment_closes _ _ _ _ Hv Ha) as (w1 & Hstep1 & ?).
    rewrite Hstep in Hstep1. by simplify_eq.
  - unfold closedAt. by rewrite (augment_other _ _ _ _ _ _ Hstep Hv).
Qed.

Lemma forEach_preserves_closed varInfos w w' a :
  forEach varInfos (augment server) w = (Resolved tt, w') →
  closedAt g (heap w) a → closedAt g (heap w') a.
Proof.
  revert w. induction varInfos as [|varInfo varInfos IH]; intros w H Hclosed.
  - simpl in H. unfold mret, Promise_ret in H. by simplify_eq.
  - rewrite forEach_cons in H.
    destruct (augment server varInfo w) as [[[]|e] w1] eqn:Hstep; [|done].
    eapply IH; [done|]. by eapply augment_preserves_closed.
Qed.

Lemma forEach_closes varInfos w w' varInfo a :
  forEach varInfos (augment server) w = (Resolved tt, w') →
  varInfo ∈ varInfos → variables varInfo = Some a →
  closedAt g (heap w') a.
Proof.
  revert w. induction varInfos as [|x varInfos IH]; intros w H Hin Hv.
  - by apply not_elem_of_nil in Hin.
  - rewrite forEach_cons in H.
    destruct (augment server x w) as [[[]|e] w1] eqn:Hstep; [|done].
    apply elem_of_cons in Hin as [<- | Hin]; [|by eapply IH].
    eapply forEach_preserves_closed; [done|].
    destruct (heap w !! a) as [vs|] eqn:Ha.
    + destruct (augment_closes _ _ _ _ Hv Ha) as (w2 & Hstep2 & ?).
      rewrite Hstep in Hstep2. by simplify_eq.
    + by rewrite (augment_not_array _ _ _ _ Hv Ha) in Hstep.
Qed.

Lemma forEach_noop varInfos w :
  (∀ varInfo a, varInfo ∈ varInfos → variables varInfo = Some a →
                closedAt g (heap w) a) →
  ∃ w', forEach varInfos (augment server) w = (Resolved tt, w') ∧ heap w' = heap w.
Proof.
  revert w. induction varInfos as [|x varInfos IH]; intros w Hclosed.
  - by exists w.
  - rewrite forEach_cons.
    assert (∃ w1, augment server x w = (Resolved tt, w1) ∧ heap w1 = heap w)
      as (w1 & -> & Hheap).
    { destruct (variables x) as [a|] eqn:Hv.
      - apply (augment_noop _ a); [done|]. apply (Hclosed x); [by left | done].
      - exists w. by rewrite augment_absent. }
    destruct (IH w1) as (w' & ? & ?).
    { intros vi a ? ?. rewrite Hheap. apply (Hclosed vi); [by right | done]. }
    exists w'. split; [done | congruence].
Qed.

End Idempotence.

(** C5, as the code has it. In a graph whose vertices have identifiers of
    their own, and with a server that answers: when [addRequiredVariables]
    has completed, running it again on what it returned completes too and
    leaves every array as the first run left it. *)
Theorem augmentation_idempotent g server varInfos w r w1 :
  uniqueIds g →
  answers g server →
  addRequiredVariables server varInfos w = (Resolved r, w1) →
  ∃ w2, addRequiredVariables server r w1 = (Resolved r, w2)
        ∧ heap w2 = heap w1.
Proof.
  intros Hunique Hanswers. rewrite addRequiredVariables_run.
  destruct (forEach varInfos (augment server) w) as [[[]|e] w1'] eqn:Hloop; [|done].
  intros H. simplify_eq.
  destruct (forEach_noop g server Hanswers r w1) as (w2 & Hloop2 & Hheap).
  { intros varInfo a Hin Hv. by eapply forEach_closes. }
  exists w2. by rewrite addRequiredVariables_run, Hloop2.
Qed.

(** ** The ATL08 scenario *)

Lemma augmentation_idempotent_witness :
  ∃ w1 w2,
    addRequiredVariables (neo4j database) [atl08Request; rssmif16dRequest] requestWorld
    = (Resolved [atl08Request; rssmif16dRequest], w1)
    ∧ addRequiredVariables (neo4j database) [atl08Request; rssmif16dRequest] w1
      = (Resolved [atl08Request; rssmif16dRequest], w2)
    ∧ heap w2 = heap w1.
Proof.
  eexists.
  assert (addRequiredVariables (neo4j database) [atl08Request; rssmif16dRequest] requestWorld
          = (Resolved [atl08Request; rssmif16dRequest], _)) as Hrun
    by (vm_compute; reflexivity).
  assert (uniqueIds database) as Hunique.
  { unfold uniqueIds. apply (bool_decide_unpack _). vm_compute. exact I. }
  assert (answers database (neo4j database)) as Hanswers.
  { intros k ids. eexists. split; reflexivity. }
  destruct (augmentation_idempotent database (neo4j database) _ _ _ _
              Hunique Hanswers Hrun) as (w2 & H2 & H3).
  exists w2. split; [exact Hrun|]. split; [exact H2 | exact H3].
Defined.

(** C5, as stated, fails: two collections list the variable
    V0000000002-EEDTEST, so two vertices carry that concept id. The request
    for [vStation] gains [vDepth] in the first run and [vTime] in the
    second. *)
Lemma second_run_appends :
  let request := [mkVariableInfo "C0000000001-EEDTEST" (Some 0)] in
  let outcome1 :=
    addRequiredVariables (neo4j sharedCatalogs) request
                         (mkWorld {[ 0 := [vStation] ]} []) in
  let outcome2 := addRequiredVariables (neo4j sharedCatalogs) request outcome1.2 in
  length (nodes sharedCatalogs) = 6
  ∧ outcome1.1 = Resolved request
  ∧ heap outcome1.2 !! 0 = Some [vStation; vDepth]
  ∧ outcome2.1 = Resolved request
  ∧ heap outcome2.2 !! 0 = Some [vStation; vDepth; vTime]
  ∧ heap outcome2.2 ≠ heap outcome1.2.
Proof.
  cbv zeta.
  assert (addRequiredVariables (neo4j sharedCatalogs)
            [mkVariableInfo "C0000000001-EEDTEST" (Some 0)]
            (mkWorld {[ 0 := [vStation] ]} [])
          = (Resolved [mkVariableInfo "C0000000001-EEDTEST" (Some 0)],
             mkWorld {[ 0 := [vStation; vDepth] ]}
                     (queryEvents ["V0000000001-EEDTEST"] None))) as ->
    by (vm_compute; reflexivity).
  cbn [fst snd].
  assert (addRequiredVariables (neo4j sharedCatalogs)
            [mkVariableInfo "C0000000001-EEDTEST" (Some 0)]
            (mkWorld {[ 0 := [vStation; vDepth] ]}
                     (queryEvents ["V0000000001-EEDTEST"] None))
          = (Resolved [mkVariableInfo "C0000000001-EEDTEST" (Some 0)],
             mkWorld {[ 0 := [vStation; vDepth; vTime] ]}
                     (queryEvents ["V0000000001-EEDTEST"] None
                      ++ queryEvents ["V0000000001-EEDTEST"; "V0000000002-EEDTEST"]
                           None))) as ->
    by (vm_compute; reflexivity).
  cbn [fst snd heap].
  split; [by vm_compute|]. split; [done|].
  split; [apply lookup_singleton_eq|]. split; [done|].
  split; [apply lookup_singleton_eq|].
  intros Heq. apply (f_equal (.!! 0)) in Heq.
  rewrite !lookup_singleton_eq in Heq. discriminate Heq.
Qed.

Lemma filter_all {A} (P : A → Prop) `{∀ x, Decision (P x)} (l : list A) :
  (∀ x, x ∈ l → P x) → filter P l = l.
Proof.
  induction l as [|x l IH]; intros Hall; [done|].
  rewrite filter_cons, decide_True by (apply Hall; by left).
  f_equal. apply IH. intros y Hy. apply Hall. by right.
Qed.

Lemma database_atl08_rows :
  map variableOfRecord (requiredVariableQuery database ["V1237330160-EEDTEST"])
  = atl08Returned
  ∧ atl08Returned ≡ₚ atl08Required.
Proof.
  split; [by vm_compute|].
  unfold atl08Returned, atl08Required.
  do 3 apply Permutation_skip. apply Permutation_swap.
Qed.

(** C7. On the database of the fixtures, with a server that answers in any
    order: augmenting the request for P0 of ATL08 leaves P0 in place,
    followed by P5, P10, P11, P3, P4 and P9 in the order the server
    returned them, and nothing else. *)
Theorem atl08_scenario server a w :
  answers database server →
  heap w !! a = Some [P0] →
  let request := [mkVariableInfo "C1234714698-EEDTEST" (Some a)] in
  ∃ appended w',
    addRequiredVariables server request w = (Resolved request, w')
    ∧ heap w' !! a = Some (P0 :: appended)
    ∧ appended ≡ₚ atl08Required.
Proof.
  intros Hanswers Ha request.
  destruct (Hanswers (runs w) (map concept_id [P0])) as (rows & Hs & Hperm).
  pose proof (addRequiredVariables_single server
                (mkVariableInfo "C1234714698-EEDTEST" (Some a)) a [P0] rows w
                eq_refl Ha Hs) as Hrun.
  destruct (merge_spec [P0] (map variableOfRecord rows))
    as (appended & Hm & _ & _ & Hfil).
  assert (map variableOfRecord rows ≡ₚ atl08Required) as Hclosure.
  { destruct database_atl08_rows as [Heq Hp].
    rewrite Hperm, <- Hp, <- Heq. reflexivity. }
  exists appended. eexists. split; [exact Hrun|]. split.
  { simpl. rewrite Hm. apply lookup_insert_eq. }
  rewrite Hfil.
  - rewrite filter_all; [done|].
    intros v Hv. rewrite Hclosure in Hv. revert Hv.
    unfold atl08Required. rewrite !elem_of_cons.
    intros [-> | [-> | [-> | [-> | [-> | [-> | []%not_elem_of_nil]]]]]];
      intros [Heq|[]%not_elem_of_nil]%elem_of_cons; discriminate Heq.
  - rewrite Hclosure. apply (bool_decide_unpack _). by vm_compute.
Qed.

Lemma atl08_scenario_witness :
  ∃ appended w',
    addRequiredVariables (neo4j database) [atl08Request] requestWorld
    = (Resolved [atl08Request], w')
    ∧ heap w' !! 0 = Some (P0 :: appended)
    ∧ appended ≡ₚ atl08Required.
Proof.
  apply (atl08_scenario (neo4j database) 0 requestWorld).
  - intros k ids. eexists. split; reflexivity.
  - reflexivity.
Defined.

(** The request of the README for RSSMIF16D: [rainfall_rate] gains
    [latitude], [longitude] and [time], three variables and no more. *)
Example rssmif16d_scenario :
  ∃ w', addRequiredVariables (neo4j database) [rssmif16dRequest] requestWorld
        = (Resolved [rssmif16dRequest], w')
        ∧ heap w' !! 1 = Some [rainfall_rate;
                               mkCmrUmmVariable "V1238395076-EEDTEST" "latitude";
                               mkCmrUmmVariable "V1238395080-EEDTEST" "longitude";
                               mkCmrUmmVariable "V1238395086-EEDTEST" "time"].
Proof. eexists. split; [vm_compute; reflexivity | reflexivity]. Qed.

(** ** Closure, cycles and unknown identifiers *)

#[local] Instance variableOfRecord_inj : Inj (=) (=) variableOfRecord.
Proof. intros [c1 n1] [c2 n2] H. by injection H as -> ->. Qed.

Lemma getRequiredVariables_neo4j g ids w :
  getRequiredVariables (neo4j g) ids w =
  (Resolved (Array (map variableOfRecord (requiredVariableQuery g ids))),
   mkWorld (heap w) (events w ++ queryEvents ids None)).
Proof. by rewrite getRequiredVariables_run. Qed.

Lemma requiredVariableQuery_NoDup g ids :
  NoDup (map variableOfRecord (requiredVariableQuery g ids)).
Proof. apply (NoDup_fmap_2 _), NoDup_remove_dups. Qed.

Lemma seeds_spec g ids s : s ∈ seeds g ids ↔ seed g ids s.
Proof.
  unfold seeds, seed. rewrite list_elem_of_omap. split.
  - intros ([i n] & Hin & Hsome).
    apply elem_of_lookup_imap in Hin as (i' & n' & Heq & Hlook). simplify_eq.
    case_decide as Hd; [|discriminate]. simplify_eq. exists n'. tauto.
  - intros (sn & Hlook & Hlab & Hid). exists (s, sn). split.
    + apply elem_of_lookup_imap. eauto.
    + by rewrite decide_True.
Qed.

Lemma reachable_seed_off_cycle g ids s :
  ¬ tc (requires g) s s →
  reachable g ids s ↔ ∃ s', s' ≠ s ∧ seed g ids s' ∧ tc (requires g) s' s.
Proof.
  intros Hoff. unfold reachable. split.
  - intros (s' & Hseed & Htc). exists s'. split; [|done].
    intros ->. by apply Hoff.
  - intros (s' & _ & Hseed & Htc). eauto.
Qed.

(** C2, as the code has it. Against a server that holds the graph [g],
    [getRequiredVariables] resolves with an array, without repetition,
    whose identifiers are exactly those of the vertices reachable from a
    requested variable vertex by one or more requires edges; these vertices
    are the least set that holds what the requested variables require and
    is closed under "add any variable required by a variable already in the
    set". A requested vertex is returned exactly when one or more requires
    edges lead to it from a requested vertex, itself included: one that
    lies on a cycle is always returned, and one that lies on no cycle is
    returned exactly when it is reachable from another requested vertex. *)
Theorem closure_correctness g ids w :
  ∃ vs,
    getRequiredVariables (neo4j g) ids w =
    (Resolved (Array vs), mkWorld (heap w) (events w ++ queryEvents ids None))
    ∧ NoDup vs
    ∧ (∀ c, c ∈ map concept_id vs ↔
            ∃ v n, reachable g ids v ∧ nodes g !! v = Some n ∧ ConceptId n = c)
    ∧ (∀ v, v ∈ matchRequired g ids ↔ reachable g ids v)
    ∧ (∀ v, reachable g ids v ↔ leastClosed g ids v)
    ∧ (∀ s, seed g ids s →
            (s ∈ matchRequired g ids ↔ ∃ s', seed g ids s' ∧ tc (requires g) s' s))
    ∧ (∀ s, seed g ids s → tc (requires g) s s → s ∈ matchRequired g ids)
    ∧ (∀ s, seed g ids s → ¬ tc (requires g) s s →
            (s ∈ matchRequired g ids ↔
             ∃ s', s' ≠ s ∧ seed g ids s' ∧ tc (requires g) s' s)).
Proof.
  exists (map variableOfRecord (requiredVariableQuery g ids)).
  split; [apply getRequiredVariables_neo4j|].
  split; [apply requiredVariableQuery_NoDup|].
  split; [|split; [|split; [|split; [|split]]]].
  - intros c. rewrite variableOfRecord_ids. apply requiredVariableQuery_ids.
  - apply matchRequired_reachable.
  - apply reachable_least.
  - intros s _. apply matchRequired_reachable.
  - intros s Hseed Hcycle. apply matchRequired_reachable. by exists s.
  - intros s _ Hoff. rewrite matchRequired_reachable.
    by apply reachable_seed_off_cycle.
Qed.

(** C2, as stated, fails in its clause on the seeds: in the fixture
    database the latitude of ATL08 is the only requested vertex, no other
    seed exists, and the query returns it all the same, since it requires
    the delta time, which requires it in turn. *)
Lemma seed_returned_without_another_seed :
  let ids := ["V1237332356-EEDTEST"] in
  seeds database ids = [13]
  ∧ (∀ s, seed database ids s ↔ s = 13)
  ∧ 13 ∈ matchRequired database ids
  ∧ map rowConceptId (requiredVariableQuery database ids)
    = ["V1237332501-EEDTEST"; "V1240989299-EEDTEST"; "V1237332356-EEDTEST"]
  ∧ "V1237332356-EEDTEST"
    ∈ map rowConceptId (requiredVariableQuery database ids).
Proof.
  assert (seeds database ["V1237332356-EEDTEST"] = [13]) as Hseeds
    by (vm_compute; reflexivity).
  assert (map rowConceptId (requiredVariableQuery database ["V1237332356-EEDTEST"])
          = ["V1237332501-EEDTEST"; "V1240989299-EEDTEST"; "V1237332356-EEDTEST"])
    as Hrows by (vm_compute; reflexivity).
  cbv zeta. split; [exact Hseeds|]. split; [|split; [|split]].
  - intros s. rewrite <- seeds_spec, Hseeds. apply list_elem_of_singleton.
  - apply (bool_decide_unpack _). vm_compute. reflexivity.
  - exact Hrows.
  - rewrite Hrows. apply list_elem_of_further, list_elem_of_further, list_elem_of_here.
Qed.


Lemma twoCycle_requires A B nameA nameB :
  requires (twoCycle A B nameA nameB) 0 1 ∧ requires (twoCycle A B nameA nameB) 1 0.
Proof.
  split.
  - exists (mkRel 0 REQUIRES 1). split; [by left | done].
  - exists (mkRel 1 REQUIRES 0). split; [by right; left | done].
Qed.

Lemma twoCycle_ids A B nameA nameB ids c :
  A ∈ ids ∨ B ∈ ids →
  c ∈ map rowConceptId (requiredVariableQuery (twoCycle A B nameA nameB) ids)
  ↔ c = A ∨ c = B.
Proof.
  intros Hseed. rewrite requiredVariableQuery_ids.
  destruct (twoCycle_requires A B nameA nameB) as [H01 H10].
  split.
  - intros (v & n & _ & Hn & <-).
    destruct v as [|[|v]]; simpl in Hn; simplify_eq; auto.
  - assert (∀ v, v = 0 ∨ v = 1 → reachable (twoCycle A B nameA nameB) ids v) as Hreach.
    { intros v Hv. destruct Hseed as [HA | HB].
      - exists 0. split; [by eexists|].
        destruct Hv as [-> | ->].
        + eapply tc_l; [exact H01 | by apply tc_once].
        + by apply tc_once.
      - exists 1. split; [by eexists|].
        destruct Hv as [-> | ->].
        + by apply tc_once.
        + eapply tc_l; [exact H10 | by apply tc_once]. }
    intros [-> | ->].
    + exists 0. eexists. split; [apply Hreach; by left | done].
    + exists 1. eexists. split; [apply Hreach; by right | done].
Qed.

Lemma selfLoop_ids A nameA c :
  c ∈ map rowConceptId (requiredVariableQuery (selfLoop A nameA) [A]) ↔ c = A.
Proof.
  rewrite requiredVariableQuery_ids. split.
  - intros (v & n & _ & Hn & <-). destruct v as [|v]; simpl in Hn; by simplify_eq.
  - intros ->. exists 0. eexists. split; [|done].
    exists 0. split.
    + eexists. split; [done|]. split; [done | by left].
    + apply tc_once. exists (mkRel 0 REQUIRES 0). split; [by left | done].
Qed.

(** C6. Whatever cycles and self-loops the graph has: the traversal needs
    no more hops than there are relationships (more fuel finds nothing
    more), and [getRequiredVariables] resolves with the finite closure. For
    two variables that require each other the closure of either is both; a
    variable that requires itself is its own closure. *)
Theorem cycle_safety :
  (∀ g fuel n, length (rels g) ≤ fuel →
     pathEnds fuel (rels g) n = pathEnds (length (rels g)) (rels g) n)
  ∧ (∀ g ids w, ∃ vs,
       (getRequiredVariables (neo4j g) ids w).1 = Resolved (Array vs)
       ∧ ∀ c, c ∈ map concept_id vs ↔
              ∃ v n, reachable g ids v ∧ nodes g !! v = Some n ∧ ConceptId n = c)
  ∧ (∀ A B nameA nameB c,
       (c ∈ map rowConceptId (requiredVariableQuery (twoCycle A B nameA nameB) [A])
        ↔ c = A ∨ c = B)
       ∧ (c ∈ map rowConceptId (requiredVariableQuery (twoCycle A B nameA nameB) [B])
          ↔ c = A ∨ c = B))
  ∧ (∀ A nameA c,
       c ∈ map rowConceptId (requiredVariableQuery (selfLoop A nameA) [A]) ↔ c = A).
Proof.
  split; [|split; [|split]].
  - intros g fuel n Hfuel. by apply pathEnds_fuel.
  - intros g ids w. exists (map variableOfRecord (requiredVariableQuery g ids)).
    rewrite getRequiredVariables_neo4j. split; [done|].
    intros c. rewrite variableOfRecord_ids. apply requiredVariableQuery_ids.
  - intros A B nameA nameB c. split; apply twoCycle_ids; [left | right]; by left.
  - apply selfLoop_ids.
Qed.

Lemma matchRequired_known g ids ids' :
  (∀ c, known g c → c ∈ ids ↔ c ∈ ids') →
  matchRequired g ids = matchRequired g ids'.
Proof.
  intros Hsame. unfold matchRequired. apply bind_ext_elem.
  intros [i n] (i' & n' & Heq & Hn)%elem_of_lookup_imap. simplify_eq.
  assert (label n' = LVariable → ConceptId n' ∈ ids ↔ ConceptId n' ∈ ids') as Hn'.
  { intros Hlab. apply Hsame. exists n'. split; [|done]. by eapply list_elem_of_lookup_2. }
  destruct (decide (label n' = LVariable ∧ ConceptId n' ∈ ids)) as [[? ?]|Hno];
    destruct (decide (label n' = LVariable ∧ ConceptId n' ∈ ids')) as [[? ?]|Hno'];
    try done; exfalso; [apply Hno' | apply Hno]; split; try done; by apply Hn'.
Qed.

(** C9. Identifiers that no variable vertex carries raise no error and
    change nothing: [getRequiredVariables] resolves with what it resolves
    with when they are left out of the request. *)
Theorem unknown_ids_ignored g ids w :
  let knownIds := filter (known g) ids in
  getRequiredVariables (neo4j g) ids w =
  (Resolved (Array (map variableOfRecord (requiredVariableQuery g knownIds))),
   mkWorld (heap w) (events w ++ queryEvents ids None))
  ∧ requiredVariableQuery g ids = requiredVariableQuery g knownIds
  ∧ ((getRequiredVariables (neo4j g) ids w).1
     = (getRequiredVariables (neo4j g) knownIds w).1).
Proof.
  intros knownIds.
  assert (requiredVariableQuery g ids = requiredVariableQuery g knownIds) as Heq.
  { unfold requiredVariableQuery. f_equal. f_equal.
    apply matchRequired_known. intros c Hc. subst knownIds.
    rewrite list_elem_of_filter. tauto. }
  rewrite !getRequiredVariables_neo4j, Heq. done.
Qed.

(** An identifier that no vertex carries, next to P0: the answer is the one
    for P0 alone. *)
Example unknown_id_next_to_P0 :
  (getRequiredVariables (neo4j database)
     ["V0000000000-EEDTEST"; "V1237330160-EEDTEST"] requestWorld).1
  = Resolved (Array atl08Returned).
Proof. by vm_compute. Qed.

(** ** Labels *)

Section LabelFacts.
Import PopulateGraph Text.

Lemma split_not_nil sep s : split sep s ≠ [].
Proof. destruct s as [|c s]; simpl; [done|]. destruct (Ascii.eqb c sep); [done|].
  by destruct (split sep s). Qed.

Lemma append_cons x (a b : string) : String x a +:+ b = String x (a +:+ b).
Proof. reflexivity. Qed.

Lemma append_assoc (a b c : string) : (a +:+ b) +:+ c = a +:+ (b +:+ c).
Proof. induction a as [|x a IH]; [done|]. by rewrite !append_cons, IH. Qed.

Lemma join_foldl_append sep (a h : string) (t : list string) :
  foldl (fun acc x => acc +:+ sep +:+ x) (a +:+ h) t
  = a +:+ foldl (fun acc x => acc +:+ sep +:+ x) h t.
Proof.
  revert h. induction t as [|x t IH]; intros h; simpl; [done|].
  by rewrite append_assoc, IH.
Qed.

Lemma join_cons_char sep c h t :
  join sep (String c h :: t) = String c (join sep (h :: t)).
Proof. unfold join. apply (join_foldl_append sep (String c EmptyString) h t). Qed.

Lemma join_empty_cons sep h t :
  join sep (EmptyString :: h :: t) = sep +:+ join sep (h :: t).
Proof. unfold join. simpl. apply (join_foldl_append sep sep h t). Qed.

(** Splitting at a character and joining with another replaces the one by
    the other. *)
Lemma join_split a b s :
  join (String b EmptyString) (split a s) = replaceChar a b s.
Proof.
  induction s as [|c s IH]; [done|]. simpl.
  destruct (Ascii.eqb c a).
  - pose proof (split_not_nil a s) as Hne.
    destruct (split a s) as [|h t]; [done|].
    by rewrite join_empty_cons, IH.
  - pose proof (split_not_nil a s) as Hne.
    destruct (split a s) as [|h t]; [done|].
    by rewrite join_cons_char, IH.
Qed.

Lemma chars_replaceChar a b s c :
  c ∈ chars (replaceChar a b s) → (c ≠ a) ∨ (a = b).
Proof.
  induction s as [|x s IH]; simpl; [by intros ?%not_elem_of_nil|].
  intros [-> | Hc]%elem_of_cons; [|auto].
  destruct (Ascii.eqb x a) eqn:Hx; [|left; by apply Ascii.eqb_neq].
  destruct (decide (b = a)); auto.
Qed.

End LabelFacts.

(** X1. The label of a variable is its name without one leading slash and
    with every other slash turned into an underscore: character by
    character, for a name that starts with a slash and for one that does
    not. No slash is left in a label. *)
Theorem getVariableLabel_no_slash :
  let underscore := fun c : ascii => if Ascii.eqb c "/" then "_"%char else c in
  (PopulateGraph.getVariableLabel EmptyString = EmptyString)
  ∧ (∀ rest,
       String.list_ascii_of_string (PopulateGraph.getVariableLabel (String "/" rest))
       = map underscore (String.list_ascii_of_string rest))
  ∧ (∀ c rest, c ≠ "/"%char →
       String.list_ascii_of_string (PopulateGraph.getVariableLabel (String c rest))
       = c :: map underscore (String.list_ascii_of_string rest))
  ∧ (∀ variableName,
       "/"%char ∉ String.list_ascii_of_string (PopulateGraph.getVariableLabel variableName)).
Proof.
  assert (∀ s, String.list_ascii_of_string (Text.replaceChar "/" "_" s)
               = map (fun c : ascii => if Ascii.eqb c "/" then "_"%char else c)
                     (String.list_ascii_of_string s)) as Hmap.
  { induction s as [|c s IH]; simpl; [done | by rewrite IH]. }
  assert (∀ s, String.list_ascii_of_string s = Text.chars s) as Hchars.
  { induction s as [|c s IH]; simpl; [done | by rewrite IH]. }
  cbv zeta. split; [reflexivity|]. split; [|split].
  - intros rest. unfold PopulateGraph.getVariableLabel. rewrite join_split.
    simpl. apply Hmap.
  - intros c rest Hc. unfold PopulateGraph.getVariableLabel. rewrite join_split.
    apply Ascii.eqb_neq in Hc. unfold PopulateGraph.stripLeadingSlash.
    rewrite Hc. cbn [Text.replaceChar String.list_ascii_of_string].
    rewrite Hc. by rewrite Hmap.
  - intros variableName. unfold PopulateGraph.getVariableLabel.
    rewrite join_split, Hchars.
    intros [Hc | Hc]%chars_replaceChar; [done | discriminate Hc].
Qed.

(** ** The statement of a collection *)

Section StatementFacts.
Import CollectionData PopulateGraph Load.

Lemma edge_pattern_is_Some (collection : Collection) variableEdge :
  is_Some (origin ← variables collection !! originIndex variableEdge;
           destination ← variables collection !! destinationIndex variableEdge;
           Some (buildRequiresEdge origin destination))
  ↔ originIndex variableEdge < length (variables collection)
    ∧ destinationIndex variableEdge < length (variables collection).
Proof.
  rewrite <- !lookup_lt_is_Some. split.
  - intros [p Hp].
    destruct (variables collection !! originIndex variableEdge); [|done].
    destruct (variables collection !! destinationIndex variableEdge); [|done].
    split; eauto.
  - intros [[o ->] [d ->]]. simpl. eauto.
Qed.

End StatementFacts.

(** X2. [getCollectionQueryString] yields a statement exactly when every
    edge refers to positions of [collection.variables]; an index out of
    range makes it fail (reading [.name] of [undefined]). The statement has
    one pattern for the collection, two per variable and one per edge. *)
Theorem getCollectionQueryString_bounds collection :
  (is_Some (PopulateGraph.getCollectionQueryString collection)
   ↔ Load.edgesInRange collection)
  ∧ ∀ stmt, PopulateGraph.getCollectionQueryString collection = Some stmt →
      length stmt = 1 + 2 * length (CollectionData.variables collection)
                    + length (CollectionData.variableEdges collection).
Proof.
  unfold PopulateGraph.getCollectionQueryString, Load.edgesInRange. split.
  - split.
    + intros [stmt H]. destruct (mapM _ _) as [es|] eqn:Hes; [|done].
      assert (is_Some (mapM
        (fun variableEdge =>
           origin ← CollectionData.variables collection
                      !! CollectionData.originIndex variableEdge;
           destination ← CollectionData.variables collection
                           !! CollectionData.destinationIndex variableEdge;
           Some (PopulateGraph.buildRequiresEdge origin destination))
        (CollectionData.variableEdges collection))) as Hsome by eauto.
      apply mapM_is_Some_1 in Hsome. eapply Forall_impl; [exact Hsome|].
      intros e He. by apply edge_pattern_is_Some.
    + intros Hall.
      destruct (mapM_is_Some_2
        (fun variableEdge =>
           origin ← CollectionData.variables collection
                      !! CollectionData.originIndex variableEdge;
           destination ← CollectionData.variables collection
                           !! CollectionData.destinationIndex variableEdge;
           Some (PopulateGraph.buildRequiresEdge origin destination))
        (CollectionData.variableEdges collection)) as [es Hes].
      { eapply Forall_impl; [exact Hall|]. intros e He.
        by apply edge_pattern_is_Some. }
      rewrite Hes. simpl. eauto.
  - intros stmt H. destruct (mapM _ _) as [es|] eqn:Hes; [|done].
    simpl in H. injection H as <-.
    apply length_mapM in Hes. simpl.
    rewrite !length_app, !length_map. lia.
Qed.

(** ** Running the statement of a collection *)

Section CreateFacts.
Import CollectionData PopulateGraph Load.

Local Notation "'step'" := (fun st p => st ≫= fun s => createPattern s p).
Local Notation "'labelOf'" :=
  (fun variable : VariableRec => getVariableLabel (name variable)).
Local Notation "'vertexOf'" :=
  (fun variable : VariableRec =>
     mkNode LVariable (conceptId variable) (Some (dataType variable)) (name variable)).

Lemma foldl_step_None (ps : list Pattern) : foldl step None ps = None.
Proof. by induction ps. Qed.

(** The vertex patterns of the variables, when their labels are new and
    differ from one another. *)
Lemma create_vertices vars env g :
  NoDup (map labelOf vars) →
  (∀ x, x ∈ map labelOf vars → env !! x = None) →
  ∃ env',
    foldl step (Some (env, g)) (map buildVariableVertex vars)
    = Some (env', mkGraph (nodes g ++ map vertexOf vars) (rels g))
    ∧ (∀ i v, vars !! i = Some v →
              env' !! labelOf v = Some (length (nodes g) + i))
    ∧ (∀ x, x ∉ map labelOf vars → env' !! x = env !! x).
Proof.
  revert env g. induction vars as [|v vars IH]; intros env g Hnd Hnew.
  - exists env. simpl. rewrite app_nil_r. split; [by destruct g|].
    split; [by intros i v ?|done].
  - apply NoDup_cons in Hnd as [Hv Hnd]. simpl.
    rewrite (Hnew (labelOf v)) by (by left). simpl.
    destruct (IH (<[labelOf v := length (nodes g)]> env)
                 (mkGraph (nodes g ++ [vertexOf v]) (rels g)) Hnd)
      as (env' & Hrun & Hlook & Hrest).
    { intros x Hx. rewrite lookup_insert_ne; [apply Hnew; by right|].
      intros <-. done. }
    exists env'. rewrite Hrun. simpl. rewrite <- app_assoc. simpl.
    split; [done|]. split.
    + intros [|i] w Hw; simpl in Hw.
      * simplify_eq. rewrite Hrest by done. rewrite lookup_insert_eq.
        f_equal. lia.
      * rewrite (Hlook i w Hw). simpl. rewrite length_app. simpl. f_equal. lia.
    + intros x Hx. rewrite not_elem_of_cons in Hx. destruct Hx as [Hne Hx].
      rewrite Hrest by done. by rewrite lookup_insert_ne.
Qed.

(** The vertex patterns fail as soon as a label is met twice or is bound
    already. *)
Lemma create_vertices_clash vars env g :
  ¬ NoDup (map labelOf vars) ∨ (∃ x, x ∈ map labelOf vars ∧ is_Some (env !! x)) →
  foldl step (Some (env, g)) (map buildVariableVertex vars) = None.
Proof.
  revert env g. induction vars as [|v vars IH]; intros env g Hclash.
  - destruct Hclash as [Hnd | (x & Hx & _)].
    + destruct Hnd. constructor.
    + by apply not_elem_of_nil in Hx.
  - simpl. destruct (env !! labelOf v) as [i|] eqn:Hv; simpl.
    { apply foldl_step_None. }
    apply IH.
    destruct (decide (labelOf v ∈ map labelOf vars)) as [Hin|Hnin].
    { right. exists (labelOf v). split; [done|]. rewrite lookup_insert_eq. eauto. }
    destruct Hclash as [Hnd | (x & Hx & Hsome)].
    + left. intros Hnd'. apply Hnd. by apply NoDup_cons.
    + right. exists x. apply elem_of_cons in Hx as [-> | Hx].
      * rewrite Hv in Hsome. by destruct Hsome.
      * split; [done|]. rewrite lookup_insert_ne; [done|]. by intros <-.
Qed.

(** Edge patterns between bound identifiers add their relationships. *)
Lemma create_edges env g ps rs :
  Forall2 (fun p r => ∃ a ty b i j,
             p = PEdge a ty b ∧ env !! a = Some i ∧ env !! b = Some j
             ∧ r = mkRel i ty j) ps rs →
  foldl step (Some (env, g)) ps = Some (env, mkGraph (nodes g) (rels g ++ rs)).
Proof.
  intros H. revert g. induction H as [|p r ps rs Hp _ IH]; intros g.
  - simpl. rewrite app_nil_r. by destruct g.
  - destruct Hp as (a & ty & b & i & j & -> & Ha & Hb & ->).
    simpl. rewrite Ha, Hb. simpl. rewrite IH. simpl.
    by rewrite <- app_assoc.
Qed.

(** The statement of a collection, pattern by pattern. *)
Lemma getCollectionQueryString_Some collection stmt :
  getCollectionQueryString collection = Some stmt →
  ∃ variableEdges',
    stmt = PVertex (collName collection) LCollection (collConceptId collection)
                   None (collName collection)
           :: map buildVariableVertex (variables collection)
           ++ map (buildHasVariableEdge (collName collection)) (variables collection)
           ++ variableEdges'
    ∧ Forall2 (fun variableEdge p =>
         ∃ origin destination,
           variables collection !! originIndex variableEdge = Some origin
           ∧ variables collection !! destinationIndex variableEdge = Some destination
           ∧ p = buildRequiresEdge origin destination)
        (variableEdges collection) variableEdges'.
Proof.
  unfold getCollectionQueryString. intros H.
  destruct (mapM _ _) as [es|] eqn:Hes; [|done].
  simpl in H. injection H as <-. exists es. split; [done|].
  apply mapM_Some_1 in Hes. eapply Forall2_impl; [exact Hes|].
  intros e p Hp. simpl in Hp.
  destruct (variables collection !! originIndex e) as [o|]; [|done].
  destruct (variables collection !! destinationIndex e) as [d|]; [|done].
  simpl in Hp. injection Hp as <-. eauto.
Qed.

End CreateFacts.

(** X3. When the statement of a collection reads as its patterns and its
    identifiers differ from one another, the [CREATE] adds what the
    collection lists, by position:
    the vertex of the collection, the vertices of its variables in their
    order, one [HASVARIABLE] relationship per variable, and for every edge
    one [REQUIRES] relationship from the vertex of [originIndex] to the
    vertex of [destinationIndex]. *)
Theorem runCreate_loadCollection collection stmt g :
  PopulateGraph.getCollectionQueryString collection = Some stmt →
  Load.readable collection = true →
  NoDup (Load.identifiers collection) →
  PopulateGraph.runCreate stmt g = Some (Load.loadCollection collection g).
Proof.
  intros Hstmt _ Hnd. unfold Load.identifiers in Hnd.
  apply NoDup_cons in Hnd as [Hname Hnd].
  apply getCollectionQueryString_Some in Hstmt as (es & -> & Hes).
  unfold PopulateGraph.runCreate. simpl. rewrite lookup_empty. simpl.
  rewrite !foldl_app.
  destruct (create_vertices (CollectionData.variables collection)
              (<[CollectionData.collName collection := length (nodes g)]> ∅)
              (mkGraph (nodes g ++ [mkNode LCollection
                  (CollectionData.collConceptId collection) None
                  (CollectionData.collName collection)]) (rels g)) Hnd)
    as (env & -> & Hvar & Hrest).
  { intros x Hx. rewrite lookup_insert_ne; [apply lookup_empty|]. by intros <-. }
  assert (env !! CollectionData.collName collection = Some (length (nodes g)))
    as Hcoll by (rewrite Hrest by done; apply lookup_insert_eq).
  assert (∀ i v, CollectionData.variables collection !! i = Some v →
            env !! PopulateGraph.getVariableLabel (CollectionData.name v)
            = Some (S (length (nodes g)) + i)) as Hvar'.
  { intros i v Hv. rewrite (Hvar i v Hv). simpl. rewrite length_app. simpl.
    f_equal. lia. }
  erewrite (create_edges env _
              (map (PopulateGraph.buildHasVariableEdge
                      (CollectionData.collName collection))
                   (CollectionData.variables collection))
              (imap (fun i _ => mkRel (length (nodes g)) HASVARIABLE
                                      (S (length (nodes g)) + i))
                    (CollectionData.variables collection))).
  2:{ apply Forall2_same_length_lookup_2.
      { by rewrite length_map, length_imap. }
      intros i p r Hp Hr. rewrite list_lookup_fmap in Hp.
      rewrite list_lookup_imap in Hr.
      destruct (CollectionData.variables collection !! i) as [v|] eqn:Hv; [|done].
      simpl in Hp, Hr. simplify_eq.
      eexists _, _, _, _, _. split; [reflexivity|]. split; [exact Hcoll|].
      split; [by apply Hvar' | done]. }
  erewrite (create_edges env _ es
              (map (fun variableEdge =>
                      mkRel (S (length (nodes g)) + CollectionData.originIndex variableEdge)
                            REQUIRES
                            (S (length (nodes g))
                             + CollectionData.destinationIndex variableEdge))
                   (CollectionData.variableEdges collection))).
  2:{ apply Forall2_fmap_r, Forall2_flip.
      eapply Forall2_impl; [exact Hes|].
      intros e p (o & d & Ho & Hd & ->). simpl.
      eexists _, _, _, _, _. split; [reflexivity|].
      split; [by apply Hvar'|]. split; [by apply Hvar' | done]. }
  simpl. unfold Load.loadCollection. by rewrite <- !app_assoc.
Qed.

Lemma runCreate_loadCollection_witness :
  PopulateGraph.getCollectionQueryString CollectionData.rssmif16d ≫=
    (fun stmt => PopulateGraph.runCreate stmt Graph.empty)
  = Some (Load.loadCollection CollectionData.rssmif16d Graph.empty).
Proof.
  destruct (PopulateGraph.getCollectionQueryString CollectionData.rssmif16d)
    as [stmt|] eqn:Hstmt; [|by vm_compute in Hstmt].
  simpl. apply (runCreate_loadCollection _ _ _ Hstmt).
  - vm_compute. reflexivity.
  - apply (bool_decide_unpack _). vm_compute. reflexivity.
Defined.

(** X4. When the statement of a collection reads as its patterns and two
    of its identifiers are the same name (two variables whose names give
    one label, or a label that is the name of the collection), the
    [CREATE] fails and adds nothing. *)
Theorem runCreate_clash collection stmt g :
  PopulateGraph.getCollectionQueryString collection = Some stmt →
  Load.readable collection = true →
  ¬ NoDup (Load.identifiers collection) →
  PopulateGraph.runCreate stmt g = None.
Proof.
  intros Hstmt _ Hnd. unfold Load.identifiers in Hnd.
  apply getCollectionQueryString_Some in Hstmt as (es & -> & _).
  unfold PopulateGraph.runCreate. simpl. rewrite lookup_empty. simpl.
  rewrite !foldl_app. rewrite create_vertices_clash.
  { by rewrite !foldl_step_None. }
  destruct (decide (CollectionData.collName collection
                    ∈ map (fun variable =>
                             PopulateGraph.getVariableLabel (CollectionData.name variable))
                          (CollectionData.variables collection))) as [Hin|Hnin].
  - right. eexists. split; [exact Hin|]. rewrite lookup_insert_eq. eauto.
  - left. intros Hnd'. apply Hnd. by apply NoDup_cons.
Qed.

Lemma runCreate_clash_witness :
  PopulateGraph.getVariableLabel "/gt1l/latitude"
  = PopulateGraph.getVariableLabel "gt1l_latitude"
  ∧ Load.readable Load.clashing = true
  ∧ PopulateGraph.getCollectionQueryString Load.clashing ≫=
      (fun stmt => PopulateGraph.runCreate stmt Fixtures.database)
    = None.
Proof.
  split; [reflexivity|]. split; [vm_compute; reflexivity|].
  destruct (PopulateGraph.getCollectionQueryString Load.clashing)
    as [stmt|] eqn:Hstmt; [|reflexivity].
  simpl. apply (runCreate_clash _ _ _ Hstmt); [vm_compute; reflexivity|].
  intros Hnd. apply (bool_decide_pack _) in Hnd. by vm_compute in Hnd.
Defined.

(** ** The script as a whole *)

(** X18. The two statements of the script, built from the fixtures, read
    as their patterns and declare no identifier twice. Carried out in the
    order of the script on a database that has been emptied, they leave
    RSSMIF16D and then ATL08, each added by position; in that graph every
    vertex has an identifier of its own and every relationship joins two
    vertices that exist. *)
Theorem populate_statements_load :
  let loaded :=
    Load.loadCollection CollectionData.atl08
      (Load.loadCollection CollectionData.rssmif16d Graph.empty) in
  Load.readable CollectionData.rssmif16d = true
  ∧ Load.readable CollectionData.atl08 = true
  ∧ NoDup (Load.identifiers CollectionData.rssmif16d)
  ∧ NoDup (Load.identifiers CollectionData.atl08)
  ∧ (PopulateGraph.getCollectionQueryString CollectionData.rssmif16d ≫=
       (fun q1 => PopulateGraph.runCreate q1 Graph.empty))
    = Some (Load.loadCollection CollectionData.rssmif16d Graph.empty)
  ∧ (PopulateGraph.getCollectionQueryString CollectionData.atl08 ≫=
       (fun q2 => PopulateGraph.runCreate q2
                    (Load.loadCollection CollectionData.rssmif16d Graph.empty)))
    = Some loaded
  ∧ uniqueIds loaded
  ∧ Forall (fun r => rsrc r < length (nodes loaded) ∧ rdst r < length (nodes loaded))
           (rels loaded).
Proof.
  cbv zeta.
  split; [vm_compute; reflexivity|]. split; [vm_compute; reflexivity|].
  split; [apply (bool_decide_unpack _); vm_compute; reflexivity|].
  split; [apply (bool_decide_unpack _); vm_compute; reflexivity|].
  split; [vm_compute; reflexivity|]. split; [vm_compute; reflexivity|].
  split.
  - unfold uniqueIds. apply (bool_decide_unpack _). vm_compute. reflexivity.
  - apply (bool_decide_unpack _). vm_compute. reflexivity.
Qed.

(** ** Connection settings *)

Lemma orElsePort_orElse value :
  Neo4jConfig.PopulateGraph.portToString
    (Neo4jConfig.PopulateGraph.orElsePort value 7687%N)
  = Neo4jConfig.orElse value "7687".
Proof. destruct value as [[|c s]|]; reflexivity. Qed.

(** X5. For every environment the script that fills the database and the
    module that queries it build the same driver (same URL, user and
    password; the default port is the number 7687 in the one and the string
    in the other) and name the same database; the script opens its session
    for writing, the module for reading. *)
Theorem same_connection env :
  Neo4jConfig.PopulateGraph.getNeo4jDriver env
  = Neo4jConfig.RequiredVariables.getNeo4jDriver env
  ∧ Neo4jConfig.database (Neo4jConfig.PopulateGraph.getNeo4jSession env)
    = Neo4jConfig.database (Neo4jConfig.RequiredVariables.getNeo4jSession env)
  ∧ Neo4jConfig.defaultAccessMode (Neo4jConfig.PopulateGraph.getNeo4jSession env)
    = Neo4jConfig.WRITE
  ∧ Neo4jConfig.defaultAccessMode (Neo4jConfig.RequiredVariables.getNeo4jSession env)
    = Neo4jConfig.READ.
Proof.
  unfold Neo4jConfig.PopulateGraph.getNeo4jDriver,
    Neo4jConfig.RequiredVariables.getNeo4jDriver.
  by rewrite orElsePort_orElse.
Qed.

Lemma orElse_delete (env : gmap string string) k k' fallback :
  env !! k = Some EmptyString →
  Neo4jConfig.orElse (delete k env !! k') fallback
  = Neo4jConfig.orElse (env !! k') fallback.
Proof.
  intros Hk. destruct (decide (k = k')) as [<-|Hne].
  - by rewrite lookup_delete_eq, Hk.
  - by rewrite lookup_delete_ne.
Qed.

(** X6. A variable of the environment that is set to the empty string
    counts as not set: protocol, host, port, user and database fall back to
    their defaults. Only the password is passed on as it is. *)
Theorem empty_variable_is_unset env k :
  k ≠ "NEO4J_PASSWORD" →
  env !! k = Some EmptyString →
  Neo4jConfig.RequiredVariables.getNeo4jDriver env
  = Neo4jConfig.RequiredVariables.getNeo4jDriver (delete k env)
  ∧ Neo4jConfig.RequiredVariables.getNeo4jSession env
    = Neo4jConfig.RequiredVariables.getNeo4jSession (delete k env)
  ∧ Neo4jConfig.PopulateGraph.getNeo4jDriver env
    = Neo4jConfig.PopulateGraph.getNeo4jDriver (delete k env)
  ∧ Neo4jConfig.PopulateGraph.getNeo4jSession env
    = Neo4jConfig.PopulateGraph.getNeo4jSession (delete k env).
Proof.
  intros Hk Hempty.
  unfold Neo4jConfig.PopulateGraph.getNeo4jDriver,
    Neo4jConfig.RequiredVariables.getNeo4jDriver,
    Neo4jConfig.PopulateGraph.getNeo4jSession,
    Neo4jConfig.RequiredVariables.getNeo4jSession.
  rewrite !orElsePort_orElse, !(orElse_delete env k) by done.
  by rewrite lookup_delete_ne.
Qed.

Lemma empty_variable_is_unset_witness :
  let env : gmap string string :=
    {[ "NEO4J_HOST" := ""; "NEO4J_PASSWORD" := "" ]} in
  Neo4jConfig.RequiredVariables.getNeo4jDriver env
  = Neo4jConfig.mkDriver "bolt://localhost:7687" "neo4j" (Some "")
  ∧ Neo4jConfig.RequiredVariables.getNeo4jDriver env
    = Neo4jConfig.RequiredVariables.getNeo4jDriver (delete "NEO4J_HOST" env).
Proof.
  intros env. split; [by vm_compute|].
  apply (empty_variable_is_unset env "NEO4J_HOST"); [discriminate | reflexivity].
Defined.

(** ** Queries never fail outwards *)

(** X7. [performCypherQuery] never rejects, whatever the server and the
    callback do: a failure of the query or of the callback is logged and
    the promise resolves with [undefined]. When the query fails the
    callback is not called. The session is closed last in every case. *)
Theorem performCypherQuery_never_rejects server queryString queryParameters
    (resultsCallback : list Row → Promise JsValue) w :
  ∃ value w',
    performCypherQuery server queryString queryParameters resultsCallback w
    = (Resolved value, w')
    ∧ last (events w') = Some EvSessionClose
    ∧ (∀ e, server (runs w) queryString queryParameters = Rejected e →
         value = Undefined
         ∧ w' = mkWorld (heap w)
                  (events w ++ [EvRun queryParameters; EvLog e; EvSessionClose]))
    ∧ (∀ rows e w1,
         server (runs w) queryString queryParameters = Resolved rows →
         resultsCallback rows
           (mkWorld (heap w) (events w ++ [EvRun queryParameters]))
         = (Rejected e, w1) →
         value = Undefined
         ∧ w' = mkWorld (heap w1) (events w1 ++ [EvLog e; EvSessionClose])).
Proof.
  unfold performCypherQuery, finally, catch, then_, session_run, session_close,
    console_log, emit, mbind, mret, Promise_bind, Promise_ret.
  destruct (server (runs w) queryString queryParameters) as [rows|e] eqn:Hs.
  - destruct (resultsCallback rows _) as [[v|e] w1] eqn:Hcb; simpl.
    + eexists _, _. split; [done|]. split; [simpl; by rewrite last_snoc|].
      split; [done|]. intros rows' e' w1' Hrows Hcb'.
      injection Hrows as <-. rewrite Hcb in Hcb'. discriminate Hcb'.
    + eexists _, _. split; [done|].
      split; [simpl; by rewrite last_snoc|].
      split; [done|]. intros rows' e' w1' Hrows Hcb'.
      injection Hrows as <-. rewrite Hcb in Hcb'. injection Hcb' as <- <-.
      by rewrite <- app_assoc.
  - simpl. eexists _, _. split; [done|].
    split; [simpl; by rewrite last_snoc|].
    split; [|done]. intros e' He'. simplify_eq. by rewrite <- !app_assoc.
Qed.

(** X8. [getRequiredVariables] only reads: no array changes. When
    [session.run] resolves with records, the promise resolves with the
    array made of them; when it rejects, the error is logged and the
    promise is not rejected. Either way one driver and one session have
    been opened, one query sent, and both are closed again. *)
Theorem getRequiredVariables_frame server ids w :
  (heap (getRequiredVariables server ids w).2 = heap w)
  ∧ (∀ rows, server (runs w) requiredVariableQuery ids = Resolved rows →
       getRequiredVariables server ids w
       = (Resolved (Array (map variableOfRecord rows)),
          mkWorld (heap w) (events w ++ queryEvents ids None)))
  ∧ (∀ e, server (runs w) requiredVariableQuery ids = Rejected e →
       ∃ value,
         getRequiredVariables server ids w
         = (Resolved value, mkWorld (heap w) (events w ++ queryEvents ids (Some e))))
  ∧ (∀ failure,
       queryEvents ids failure
       = [EvDriver; EvSession; EvRun ids]
         ++ from_option (fun e => [EvLog e]) [] failure
         ++ [EvSessionClose; EvDriverClose]).
Proof.
  rewrite getRequiredVariables_run.
  split; [|split; [|split]].
  - by destruct (server (runs w) requiredVariableQuery ids).
  - by intros rows ->.
  - intros e ->. by exists Undefined.
  - by intros [e|].
Qed.

(** ** More on the query *)

(** X9. The rows of the query do not depend on the order of the requested
    identifiers nor on how often one is listed: two lists with the same
    members get the same rows in the same order. *)
Theorem requiredVariableQuery_same_members g ids ids' :
  (∀ c, c ∈ ids ↔ c ∈ ids') →
  requiredVariableQuery g ids = requiredVariableQuery g ids'.
Proof.
  intros Hsame. unfold requiredVariableQuery. f_equal. f_equal.
  apply matchRequired_known. intros c _. apply Hsame.
Qed.

Lemma requiredVariableQuery_same_members_witness :
  requiredVariableQuery database
    ["V1238395077-EEDTEST"; "V1237330160-EEDTEST"; "V1238395077-EEDTEST"]
  = requiredVariableQuery database
      ["V1237330160-EEDTEST"; "V1238395077-EEDTEST"].
Proof.
  apply requiredVariableQuery_same_members. intros c.
  rewrite !elem_of_cons. tauto.
Defined.

Lemma seed_app g ids1 ids2 s :
  seed g (ids1 ++ ids2) s ↔ seed g ids1 s ∨ seed g ids2 s.
Proof.
  unfold seed. split.
  - intros (sn & ? & ? & [?|?]%elem_of_app); [left | right]; eauto.
  - intros [(sn & ? & ? & ?) | (sn & ? & ? & ?)]; exists sn;
      (split; [done|]); (split; [done|]); apply elem_of_app; auto.
Qed.

(** X10. The closure of two requests taken together is the union of their
    closures. *)
Theorem requiredVariableQuery_union g ids1 ids2 row :
  row ∈ requiredVariableQuery g (ids1 ++ ids2)
  ↔ row ∈ requiredVariableQuery g ids1 ∨ row ∈ requiredVariableQuery g ids2.
Proof.
  rewrite !requiredVariableQuery_elem. unfold reachable. split.
  - intros (v & n & (s & [Hs|Hs]%seed_app & Htc) & Hn & Hrow); [left | right];
      exists v, n; eauto.
  - intros [(v & n & (s & Hs & Htc) & Hn & Hrow) | (v & n & (s & Hs & Htc) & Hn & Hrow)];
      exists v, n; (split; [|done]); exists s; (split; [|done]);
      apply seed_app; auto.
Qed.

Lemma requiresIn_filter rs a b :
  requiresIn (filter (fun r => rtype r = REQUIRES) rs) a b ↔ requiresIn rs a b.
Proof.
  unfold requiresIn. split.
  - intros (r & [_ Hr]%list_elem_of_filter & ?). eauto.
  - intros (r & Hr & Ha & Hty & Hb). exists r. split; [|done].
    by apply list_elem_of_filter.
Qed.

(** X11. Only [REQUIRES] relationships count: taking every other
    relationship (the [HASVARIABLE] ones) out of the graph leaves the rows
    of the query as they are. *)
Theorem requiredVariableQuery_only_requires g ids row :
  row ∈ requiredVariableQuery g ids
  ↔ row ∈ requiredVariableQuery
            (mkGraph (nodes g) (filter (fun r => rtype r = REQUIRES) (rels g))) ids.
Proof.
  rewrite !requiredVariableQuery_elem. unfold reachable, requires, seed. simpl.
  split; intros (v & n & (s & Hs & Htc) & Hn & Hrow); exists v, n;
    (split; [|done]); exists s; (split; [done|]);
    (eapply tc_mono; [|exact Htc]); intros a b; apply requiresIn_filter.
Qed.

Lemma tc_last_step {A} (R : relation A) x v : tc R x v → ∃ y, R y v.
Proof. induction 1; eauto. Qed.

(** The row of the vertex a relationship ends at. *)
Lemma requiredVariableQuery_destination g ids row :
  row ∈ requiredVariableQuery g ids →
  ∃ r n, r ∈ rels g ∧ rtype r = REQUIRES ∧ nodes g !! rdst r = Some n
         ∧ row = mkRow (ConceptId n) (Name n).
Proof.
  intros (v & n & (s & _ & Htc) & Hn & ->)%requiredVariableQuery_elem.
  apply tc_last_step in Htc as (y & r & Hr & _ & Hty & <-). eauto 10.
Qed.

Lemma length_omap_le {A B} (f : A → option B) (l : list A) :
  length (omap f l) ≤ length l.
Proof.
  induction l as [|x l IH]; csimpl; [done|]. destruct (f x); simpl; lia.
Qed.

(** X12. Every row of the query belongs to a vertex that some [REQUIRES]
    relationship ends at: a variable that nothing requires is never
    returned. The rows are without repetition, so there are at most as many
    as vertices and at most as many as [REQUIRES] relationships. *)
Theorem requiredVariableQuery_bounds g ids :
  (∀ row, row ∈ requiredVariableQuery g ids →
     ∃ r n, r ∈ rels g ∧ rtype r = REQUIRES ∧ nodes g !! rdst r = Some n
            ∧ row = mkRow (ConceptId n) (Name n))
  ∧ NoDup (requiredVariableQuery g ids)
  ∧ length (requiredVariableQuery g ids) ≤ length (nodes g)
  ∧ length (requiredVariableQuery g ids)
    ≤ length (filter (fun r => rtype r = REQUIRES) (rels g)).
Proof.
  split; [apply requiredVariableQuery_destination|].
  assert (NoDup (requiredVariableQuery g ids)) as Hnd by apply NoDup_remove_dups.
  split; [done|]. split.
  - rewrite <- (length_map (fun n => mkRow (ConceptId n) (Name n)) (nodes g)).
    apply submseteq_length, NoDup_submseteq; [done|].
    intros row (r & n & _ & _ & Hn & ->)%requiredVariableQuery_destination.
    apply list_elem_of_fmap. exists n. split; [done|].
    by eapply list_elem_of_lookup_2.
  - etrans; [|apply (length_omap_le
        (fun r => (fun n => mkRow (ConceptId n) (Name n)) <$> nodes g !! rdst r))].
    apply submseteq_length, NoDup_submseteq; [done|].
    intros row (r & n & Hr & Hty & Hn & ->)%requiredVariableQuery_destination.
    apply list_elem_of_omap. exists r. split.
    + by apply list_elem_of_filter.
    + by rewrite Hn.
Qed.

(** ** What the augmentation keeps *)

Section KeepFacts.
Variable server : Server.

(** What every step keeps, the loop keeps, however it ends. *)
Lemma forEach_invariant {A} (body : A → Promise unit) (I : World → Prop) l :
  (∀ x w r w', body x w = (r, w') → I w → I w') →
  ∀ w r w', forEach l body w = (r, w') → I w → I w'.
Proof.
  intros Hstep. induction l as [|x l IH]; intros w r w' H HI.
  - simpl in H. unfold mret, Promise_ret in H. by simplify_eq.
  - rewrite forEach_cons in H.
    destruct (body x w) as [[[]|e] w1] eqn:Hx.
    + eapply IH; [exact H|]. by eapply Hstep.
    + simplify_eq. by eapply Hstep.
Qed.

Lemma addRequiredVariables_invariant (I : World → Prop) varInfos :
  (∀ x w r w', augment server x w = (r, w') → I w → I w') →
  ∀ w r w', addRequiredVariables server varInfos w = (r, w') → I w → I w'.
Proof.
  intros Hstep w r w'. rewrite addRequiredVariables_run.
  destruct (forEach varInfos (augment server) w) as [[[]|e] w1] eqn:Hloop;
    intros H HI; simplify_eq; by eapply (forEach_invariant _ I).
Qed.

Lemma merge_NoDup vs rs :
  NoDup (map concept_id vs) → NoDup (map concept_id (merge vs rs)).
Proof.
  intros Hnd. destruct (merge_spec vs rs) as (app & -> & Hids & Hnd' & _).
  rewrite map_app. apply NoDup_app. split; [done|]. split; [|done].
  intros c Hc Hc'. apply Hids in Hc' as [_ Hc']. done.
Qed.

Lemma augment_dom varInfo w r w' :
  augment server varInfo w = (r, w') → dom (heap w') = dom (heap w).
Proof.
  intros H.
  destruct (augment_cases server varInfo w)
    as [[_ Hr] | [(a & _ & _ & Hr) | [(a & vs & rows & _ & Ha & _ & Hr)
       | (a & vs & e' & _ & _ & _ & Hr)]]];
    rewrite Hr in H; simplify_eq; simpl; try done.
  apply dom_insert_lookup_L. eauto.
Qed.

Lemma augment_NoDup varInfo w r w' b :
  augment server varInfo w = (r, w') →
  (∀ vs, heap w !! b = Some vs → NoDup (map concept_id vs)) →
  ∀ vs, heap w' !! b = Some vs → NoDup (map concept_id vs).
Proof.
  intros H Hnd.
  destruct (augment_cases server varInfo w)
    as [[_ Hr] | [(a & _ & _ & Hr) | [(a & vs & rows & _ & Ha & _ & Hr)
       | (a & vs & e' & _ & _ & _ & Hr)]]];
    rewrite Hr in H; simplify_eq; simpl; try done.
  intros vs'. destruct (decide (a = b)) as [->|Hne].
  - rewrite lookup_insert_eq. intros ?. simplify_eq. apply merge_NoDup. auto.
  - rewrite lookup_insert_ne by done. auto.
Qed.

End KeepFacts.

(** X13. However [addRequiredVariables] ends, it creates no array and
    removes none, and an array in which no identifier was listed twice is
    still one in which no identifier is listed twice. *)
Theorem addRequiredVariables_keeps_distinct server varInfos w r w' :
  addRequiredVariables server varInfos w = (r, w') →
  dom (heap w') = dom (heap w)
  ∧ ∀ a vs, heap w !! a = Some vs → NoDup (map concept_id vs) →
      ∃ vs', heap w' !! a = Some vs' ∧ NoDup (map concept_id vs').
Proof.
  intros H. split.
  - apply (addRequiredVariables_invariant server
             (fun w0 => dom (heap w0) = dom (heap w)) varInfos) in H; [done| |done].
    intros x w0 r0 w0' Hx <-. by eapply augment_dom.
  - intros a vs Ha Hnd.
    apply (addRequiredVariables_invariant server
             (fun w0 => ∃ vs', heap w0 !! a = Some vs' ∧ NoDup (map concept_id vs'))
             varInfos) in H; [done| |eauto].
    intros x w0 r0 w0' Hx (vs0 & Hvs0 & Hnd0).
    destruct (augment_extends _ _ _ _ _ _ _ Hx Hvs0) as (app & Happ).
    eexists. split; [exact Happ|].
    eapply (augment_NoDup _ _ _ _ _ a Hx); [|exact Happ].
    intros vs1 Hvs1. by simplify_eq.
Qed.

Lemma addRequiredVariables_keeps_distinct_witness :
  ∃ e w', addRequiredVariables (failsAfter 1 database)
            [atl08Request; rssmif16dRequest] requestWorld = (Rejected e, w')
          ∧ dom (heap w') = dom (heap requestWorld)
          ∧ ∃ vs', heap w' !! 0 = Some vs' ∧ NoDup (map concept_id vs').
Proof.
  do 2 eexists.
  assert (addRequiredVariables (failsAfter 1 database)
            [atl08Request; rssmif16dRequest] requestWorld
          = (Rejected undefinedForEach,
             mkWorld {[ 0 := P0 :: atl08Returned; 1 := [rainfall_rate] ]}
               (queryEvents ["V1237330160-EEDTEST"] None
                ++ queryEvents ["V1238395077-EEDTEST"]
                     (Some (Neo4jError "ServiceUnavailable"))))) as Hrun
    by (vm_compute; reflexivity).
  split; [exact Hrun|].
  destruct (addRequiredVariables_keeps_distinct _ _ _ _ _ Hrun) as [Hdom Hnd].
  split; [exact Hdom|].
  apply (Hnd 0 [P0]); [reflexivity|]. apply NoDup_singleton.
Defined.

(** ** Errors and the log *)

Section LogFacts.
Variable server : Server.
Import Log.

Lemma errorsLogged_app w es :
  errorsLogged (mkWorld (heap w) (events w ++ es))
  = errorsLogged w
    ++ omap (fun ev => match ev with EvLog e => Some e | _ => None end) es.
Proof. unfold errorsLogged. simpl. apply omap_app. Qed.

(** One step: nothing is logged unless the query failed, and then the
    error of the server is logged and the step fails. *)
Lemma augment_log varInfo w outcome w' :
  augment server varInfo w = (outcome, w') →
  match outcome with
  | Resolved _ => errorsLogged w' = errorsLogged w
  | Rejected e =>
      (e = notArray ∧ errorsLogged w' = errorsLogged w)
      ∨ (e = undefinedForEach
         ∧ ∃ err ids, server (runs w) requiredVariableQuery ids = Rejected err
                      ∧ errorsLogged w' = errorsLogged w ++ [err])
  end.
Proof.
  intros H.
  destruct (augment_cases server varInfo w)
    as [[_ Hr] | [(a & _ & _ & Hr) | [(a & vs & rows & _ & Ha & _ & Hr)
       | (a & vs & e' & _ & _ & Hs & Hr)]]];
    rewrite Hr in H; simplify_eq.
  - done.
  - by left.
  - unfold errorsLogged. simpl. rewrite omap_app. simpl. by rewrite app_nil_r.
  - right. split; [done|]. exists e', (map concept_id vs). split; [done|].
    by rewrite errorsLogged_app.
Qed.

Lemma forEach_resolved_log varInfos w w' :
  forEach varInfos (augment server) w = (Resolved tt, w') →
  errorsLogged w' = errorsLogged w.
Proof.
  revert w. induction varInfos as [|x l IH]; intros w H.
  - simpl in H. unfold mret, Promise_ret in H. by simplify_eq.
  - rewrite forEach_cons in H.
    destruct (augment server x w) as [[[]|e] w1] eqn:Hx; [|done].
    rewrite (IH _ H). by apply (augment_log _ _ _ _ Hx).
Qed.

End LogFacts.

(** X14. A run of [addRequiredVariables] that completes has logged
    nothing. A run that fails has logged at most one error, and that one
    is an error the server rejected a query with. *)
Theorem addRequiredVariables_log server varInfos w outcome w' :
  addRequiredVariables server varInfos w = (outcome, w') →
  match outcome with
  | Resolved _ => Log.errorsLogged w' = Log.errorsLogged w
  | Rejected _ =>
      Log.errorsLogged w' = Log.errorsLogged w
      ∨ ∃ err k ids, server k requiredVariableQuery ids = Rejected err
                     ∧ Log.errorsLogged w' = Log.errorsLogged w ++ [err]
  end.
Proof.
  rewrite addRequiredVariables_run.
  destruct (forEach varInfos (augment server) w) as [[[]|e] w1] eqn:Hloop;
    intros H; simplify_eq.
  - by eapply forEach_resolved_log.
  - apply forEach_rejected in Hloop as (processed & x & rest & w1 & -> & Hp & Hx).
    apply forEach_resolved_log in Hp. apply augment_log in Hx.
    rewrite <- Hp. destruct Hx as [[_ Hx] | (_ & err & ids & Hs & Hx)]; [by left|].
    right. by exists err, (runs w1), ids.
Qed.

Lemma addRequiredVariables_log_witness :
  let outcome :=
    addRequiredVariables (neo4j database) [atl08Request; rssmif16dRequest]
                         requestWorld in
  outcome.1 = Resolved [atl08Request; rssmif16dRequest]
  ∧ Log.errorsLogged outcome.2 = Log.errorsLogged requestWorld.
Proof.
  assert (addRequiredVariables (neo4j database) [atl08Request; rssmif16dRequest]
                               requestWorld
          = (Resolved [atl08Request; rssmif16dRequest],
             (addRequiredVariables (neo4j database)
                [atl08Request; rssmif16dRequest] requestWorld).2)) as Hrun
    by (vm_compute; reflexivity).
  cbv zeta. split; [by rewrite Hrun|].
  exact (addRequiredVariables_log _ _ _ _ _ Hrun).
Defined.

(** ** With a server that answers *)

Section AnswerFacts.
Variable g : Graph.t.
Variable server : Server.
Hypothesis Hanswers : answers g server.

Lemma augment_resolves varInfo w :
  (∀ a, variables varInfo = Some a → is_Some (heap w !! a)) →
  ∃ w', augment server varInfo w = (Resolved tt, w').
Proof.
  intros Harr.
  destruct (augment_cases server varInfo w)
    as [[_ Hr] | [(a & Hv & Ha & Hr) | [(a & vs & rows & _ & _ & _ & Hr)
       | (a & vs & e' & _ & _ & Hs & Hr)]]]; eauto.
  - destruct (Harr a Hv) as [? ?]. congruence.
  - destruct (Hanswers (runs w) (map concept_id vs)) as (rows & Hs' & _). congruence.
Qed.

Lemma query_mono ids ids' c :
  (∀ c', c' ∈ ids → c' ∈ ids') →
  c ∈ map rowConceptId (requiredVariableQuery g ids) →
  c ∈ map rowConceptId (requiredVariableQuery g ids').
Proof.
  intros Hsub (v & n & Hv & Hn)%requiredVariableQuery_ids.
  apply requiredVariableQuery_ids. exists v, n. split; [|done].
  by eapply reachable_mono.
Qed.

(** After the loop every entry's array holds what it held and what that
    requires. *)
Lemma forEach_complete varInfos w w' varInfo a vs :
  forEach varInfos (augment server) w = (Resolved tt, w') →
  varInfo ∈ varInfos → variables varInfo = Some a → heap w !! a = Some vs →
  ∃ vs', heap w' !! a = Some vs'
         ∧ (∀ c, c ∈ map concept_id vs → c ∈ map concept_id vs')
         ∧ (∀ c, c ∈ map rowConceptId (requiredVariableQuery g (map concept_id vs)) →
                 c ∈ map concept_id vs').
Proof.
  revert w vs. induction varInfos as [|x l IH]; intros w vs H Hin Hv Ha.
  { by apply not_elem_of_nil in Hin. }
  rewrite forEach_cons in H.
  destruct (augment server x w) as [[[]|e] w1] eqn:Hx; [|done].
  apply elem_of_cons in Hin as [<- | Hin].
  - rewrite (augment_run _ _ _ _ _ Hv Ha) in Hx.
    destruct (server (runs w) requiredVariableQuery (map concept_id vs))
      as [rows|e] eqn:Hs; [|done].
    injection Hx as <-.
    destruct (forEach_augment_frame _ _ _ _ H) as (Hext & _ & _).
    destruct (Hext a (merge vs (map variableOfRecord rows))) as (app & Ha').
    { simpl. apply lookup_insert_eq. }
    eexists. split; [exact Ha'|].
    split; intros c Hc; rewrite map_app; apply elem_of_app; left;
      apply merge_ids; [by left | right].
    rewrite variableOfRecord_ids. by apply (answers_ids g server Hanswers _ _ _ _ Hs).
  - destruct (augment_extends _ _ _ _ _ _ _ Hx Ha) as (app1 & Ha1).
    destruct (IH _ _ H Hin Hv Ha1) as (vs' & Ha' & Hold & Hreq).
    exists vs'. split; [done|]. split.
    + intros c Hc. apply Hold. rewrite map_app. apply elem_of_app. by left.
    + intros c Hc. apply Hreq. eapply query_mono; [|exact Hc].
      intros c' Hc'. rewrite map_app. apply elem_of_app. by left.
Qed.

End AnswerFacts.

(** X15. With a server that answers, [addRequiredVariables] completes
    whenever every [variables] it meets is an array. *)
Theorem addRequiredVariables_resolves g server varInfos w :
  answers g server →
  (∀ varInfo a, varInfo ∈ varInfos → variables varInfo = Some a →
                is_Some (heap w !! a)) →
  ∃ w', addRequiredVariables server varInfos w = (Resolved varInfos, w').
Proof.
  intros Hanswers Harr. rewrite addRequiredVariables_run.
  cut (∃ w', forEach varInfos (augment server) w = (Resolved tt, w')).
  { intros (w' & ->). eauto. }
  revert w Harr. induction varInfos as [|x l IH]; intros w Harr.
  - by exists w.
  - rewrite forEach_cons.
    destruct (augment_resolves g server Hanswers x w) as (w1 & Hx).
    { intros a Ha. apply (Harr x); [by left | done]. }
    rewrite Hx. apply IH. intros vi a Hvi Ha.
    destruct (Harr vi a) as [vs Hvs]; [by right | done |].
    destruct (augment_extends _ _ _ _ _ _ _ Hx Hvs) as (app & ->). eauto.
Qed.

Lemma addRequiredVariables_resolves_witness :
  ∃ w', addRequiredVariables (neo4j database)
          [atl08Request; rssmif16dRequest] requestWorld
        = (Resolved [atl08Request; rssmif16dRequest], w').
Proof.
  apply (addRequiredVariables_resolves database).
  - intros k ids. eexists. split; reflexivity.
  - intros varInfo a [-> | [-> | []%not_elem_of_nil]%elem_of_cons]%elem_of_cons Hv;
      injection Hv as <-; eexists; reflexivity.
Defined.

(** X16. With a server that answers, after [addRequiredVariables] has
    completed the array of every entry still holds what it held, and holds
    every variable that what it held requires, over any number of hops. *)
Theorem augmentation_complete g server varInfos w r w' varInfo a vs :
  answers g server →
  addRequiredVariables server varInfos w = (Resolved r, w') →
  varInfo ∈ varInfos → variables varInfo = Some a → heap w !! a = Some vs →
  ∃ vs', heap w' !! a = Some vs'
         ∧ (∀ c, c ∈ map concept_id vs → c ∈ map concept_id vs')
         ∧ (∀ v n, reachable g (map concept_id vs) v → nodes g !! v = Some n →
                   ConceptId n ∈ map concept_id vs').
Proof.
  intros Hanswers. rewrite addRequiredVariables_run.
  destruct (forEach varInfos (augment server) w) as [[[]|e] w1] eqn:Hloop; [|done].
  intros H Hin Hv Ha. simplify_eq.
  destruct (forEach_complete g server Hanswers _ _ _ _ _ _ Hloop Hin Hv Ha)
    as (vs' & Ha' & Hold & Hreq).
  exists vs'. split; [done|]. split; [done|].
  intros v n Hreach Hn. apply Hreq, requiredVariableQuery_ids. eauto.
Qed.

Lemma augmentation_complete_witness :
  ∃ w' vs',
    addRequiredVariables (neo4j database) [atl08Request; rssmif16dRequest] requestWorld
    = (Resolved [atl08Request; rssmif16dRequest], w')
    ∧ heap w' !! 1 = Some vs'
    ∧ (∀ c, c ∈ map concept_id [rainfall_rate] → c ∈ map concept_id vs').
Proof.
  eexists.
  assert (addRequiredVariables (neo4j database)
            [atl08Request; rssmif16dRequest] requestWorld
          = (Resolved [atl08Request; rssmif16dRequest], _)) as Hrun
    by (vm_compute; reflexivity).
  destruct (augmentation_complete database (neo4j database) _ _ _ _
              rssmif16dRequest 1 [rainfall_rate]
              ltac:(intros k ids; eexists; split; reflexivity) Hrun)
    as (vs' & H1 & H2 & _).
  - right. left.
  - reflexivity.
  - reflexivity.
  - exists vs'. split; [exact Hrun|]. split; [exact H1 | exact H2].
Defined.

Section ExactFacts.
Variable g : Graph.t.
Variable server : Server.
Hypothesis Hunique : uniqueIds g.
Hypothesis Hanswers : answers g server.

(** A step appends nothing but what the identifiers [ids] require, as long
    as the array held nothing but [ids] and what they require. *)
Lemma augment_within varInfo w r w' b ids :
  augment server varInfo w = (r, w') →
  (∀ vs, heap w !! b = Some vs → ∀ c, c ∈ map concept_id vs →
     c ∈ ids ∨ c ∈ map rowConceptId (requiredVariableQuery g ids)) →
  ∀ vs, heap w' !! b = Some vs → ∀ c, c ∈ map concept_id vs →
    c ∈ ids ∨ c ∈ map rowConceptId (requiredVariableQuery g ids).
Proof.
  intros H Hin.
  destruct (augment_cases server varInfo w)
    as [[_ Hr] | [(a & _ & _ & Hr) | [(a & vs & rows & _ & Ha & Hs & Hr)
       | (a & vs & e' & _ & _ & _ & Hr)]]];
    rewrite Hr in H; simplify_eq; simpl; try exact Hin.
  intros vs'. destruct (decide (a = b)) as [->|Hne].
  2:{ rewrite lookup_insert_ne by done. apply Hin. }
  rewrite lookup_insert_eq. intros ? c Hc. simplify_eq.
  apply merge_ids in Hc as [Hc | Hc]; [by eapply Hin|].
  right. rewrite variableOfRecord_ids in Hc.
  apply (answers_ids g server Hanswers _ _ _ _ Hs) in Hc.
  eapply (query_transitive g Hunique); [|exact Hc].
  intros c' Hc'. by eapply Hin.
Qed.

End ExactFacts.

(** X17. In a graph whose vertices have identifiers of their own, with a
    server that answers: after [addRequiredVariables] has completed, the
    identifiers in the array of an entry are exactly those it held before
    and those of the variables they require; nothing else has been
    appended, however many entries refer to the array. *)
Theorem augmentation_exact g server varInfos w r w' varInfo a vs :
  uniqueIds g →
  answers g server →
  addRequiredVariables server varInfos w = (Resolved r, w') →
  varInfo ∈ varInfos → variables varInfo = Some a → heap w !! a = Some vs →
  ∃ vs', heap w' !! a = Some vs'
         ∧ ∀ c, c ∈ map concept_id vs' ↔
                c ∈ map concept_id vs
                ∨ c ∈ map rowConceptId (requiredVariableQuery g (map concept_id vs)).
Proof.
  intros Hunique Hanswers Hrun Hin Hv Ha.
  assert (∀ vs', heap w' !! a = Some vs' → ∀ c, c ∈ map concept_id vs' →
            c ∈ map concept_id vs
            ∨ c ∈ map rowConceptId (requiredVariableQuery g (map concept_id vs)))
    as Hwithin.
  { refine (addRequiredVariables_invariant server
             (fun w0 => ∀ vs', heap w0 !! a = Some vs' → ∀ c, c ∈ map concept_id vs' →
                c ∈ map concept_id vs
                ∨ c ∈ map rowConceptId (requiredVariableQuery g (map concept_id vs)))
             varInfos _ w _ w' Hrun _).
    - intros x w0 r0 w0' Hx HI. by eapply augment_within.
    - intros vs' Hvs' c Hc. rewrite Ha in Hvs'. simplify_eq. by left. }
  revert Hrun. rewrite addRequiredVariables_run.
  destruct (forEach varInfos (augment server) w) as [[[]|e] w1] eqn:Hloop; [|done].
  intros Hrun. simplify_eq.
  destruct (forEach_complete g server Hanswers _ _ _ _ _ _ Hloop Hin Hv Ha)
    as (vs' & Ha' & Hold & Hreq).
  exists vs'. split; [done|]. intros c. split; [by apply Hwithin|].
  intros [Hc | Hc]; auto.
Qed.

Lemma augmentation_exact_witness :
  ∃ w' vs',
    addRequiredVariables (neo4j database) [atl08Request; rssmif16dRequest] requestWorld
    = (Resolved [atl08Request; rssmif16dRequest], w')
    ∧ heap w' !! 0 = Some vs'
    ∧ ∀ c, c ∈ map concept_id vs' ↔
           c ∈ map concept_id [P0]
           ∨ c ∈ map rowConceptId
                   (requiredVariableQuery database (map concept_id [P0])).
Proof.
  eexists.
  assert (addRequiredVariables (neo4j database)
            [atl08Request; rssmif16dRequest] requestWorld
          = (Resolved [atl08Request; rssmif16dRequest], _)) as Hrun
    by (vm_compute; reflexivity).
  assert (uniqueIds database) as Hunique.
  { unfold uniqueIds. apply (bool_decide_unpack _). vm_compute. exact I. }
  assert (answers database (neo4j database)) as Hanswers.
  { intros k ids. eexists. split; reflexivity. }
  destruct (augmentation_exact database (neo4j database) _ _ _ _
              atl08Request 0 [P0] Hunique Hanswers Hrun)
    as (vs' & H1 & H2).
  - left.
  - reflexivity.
  - reflexivity.
  - exists vs'. split; [exact Hrun|]. split; [exact H1 | exact H2].
Defined.
